(** * Bias-Gelu fusion: a shallow embedding of [BiasGelu::ApplyImpl]

    Source: onnxruntime/core/optimizer/bias_gelu_fusion.cc.

    The transformer walks a graph in topological order, recurses into the
    nested subgraphs of every node and replaces each [Add -> Gelu] pair whose
    [Add] has a rank-1 operand by a single [BiasGelu] node.

    The graph container ([Graph], [Node], [NodeArg], [GraphViewer]) and the
    helpers of [graph_utils] are declared outside the translated file; they
    are modelled from the specification of the graph IR and each such
    definition says so in its comment. *)

From Stdlib Require Import String ZArith List Bool Lia DecimalString.
From stdpp Require Import base option list.

Open Scope string_scope.
Open Scope list_scope.

(** ** Data model *)

(** One dimension of a tensor shape: a fixed size, a symbolic name, or
    nothing at all. *)
Inductive Dimension : Type :=
| dim_value (v : Z)
| dim_param (p : string)
| dim_unset.

Record TensorShapeProto : Type := mkShape { dim : list Dimension }.

Definition dim_size (s : TensorShapeProto) : nat := length (dim s).

(** A value flowing between nodes.  [Shape] is [None] where the C++ accessor
    returns [nullptr].  The C++ code passes [NodeArg*] around; one graph holds
    one [NodeArg] per name, so a pointer is identified with the name of the
    value it points to. *)
Record NodeArg : Type := mkNodeArg {
  Name : string;
  TypeAsProto : option string;
  Shape : option TensorShapeProto
}.

(** [NodeIndex] is [size_t]; an index is a position in the arena. *)
Abbreviation NodeIndex := nat (only parsing).

(** Nodes and graphs are mutually recursive: a control-flow node owns nested
    subgraphs.  [Nodes] is the arena of the graph: a node's index is its
    position, and a removed node leaves [None] behind. *)
Inductive Graph : Type := mkGraph {
  Nodes : list (option Node);
  GraphInputs : list NodeArg;
  GraphOutputs : list NodeArg;
  name_generator : nat
}
with Node : Type := mkNode {
  NodeName : string;
  OpType : string;
  Description : string;
  Domain : string;
  SinceVersion : Z;
  InputDefs : list NodeArg;
  OutputDefs : list NodeArg;
  ExecutionProviderType : string;
  Subgraphs : list Graph
}.

(** Failure conditions that abort a pass.  [NameCollision] and
    [DanglingConsumer] are those of the graph IR; [StaleReference] stands for
    a C++ reference to a node that is no longer in the graph, [InvalidGraph]
    for an [Add] node without its two inputs, and [RecursionLimit] for the
    bound this model puts on the nesting of subgraphs. *)
Inductive StatusCode : Type :=
| NameCollision
| DanglingConsumer
| StaleReference
| InvalidGraph
| RecursionLimit.

Inductive Status : Type :=
| OK
| FAIL (code : StatusCode).

Inductive Result (A : Type) : Type :=
| Ok (a : A)
| Err (code : StatusCode).
Arguments Ok {A} a.
Arguments Err {A} code.

(** Operator-set domains.  The two constants are declared outside the
    translated file and the specification gives them no value, so the
    development is parametric in them. *)
Class OpSetDomains : Type := {
  kOnnxDomain : string;
  kMSDomain : string
}.

(** The transformer object: the part of [GraphTransformer] the rule reads. *)
Record GraphTransformer : Type := mkTransformer {
  GetCompatibleExecutionProviders : list string
}.

(** ** Graph IR *)

(** Modelled from the spec: [Graph::GetNode] is missing from the sources;
    "absent exactly when the node has been removed". *)
Definition GetNode (graph : Graph) (node_index : NodeIndex) : option Node :=
  match Nodes graph !! node_index with
  | Some (Some node) => Some node
  | _ => None
  end.

Fixpoint live_count (arena : list (option Node)) : nat :=
  match arena with
  | [] => 0
  | Some _ :: arena' => S (live_count arena')
  | None :: arena' => live_count arena'
  end.

(** Modelled from the spec: [Graph::NumberOfNodes] is missing from the
    sources; the "total node count" of a graph counts the nodes that have not
    been removed. *)
Definition NumberOfNodes (graph : Graph) : nat := live_count (Nodes graph).

(** The live nodes of an arena with their indices, in index order. *)
Fixpoint live_from (base : nat) (arena : list (option Node))
  : list (NodeIndex * Node) :=
  match arena with
  | [] => []
  | Some node :: arena' => (base, node) :: live_from (S base) arena'
  | None :: arena' => live_from (S base) arena'
  end.

Definition live_nodes (graph : Graph) : list (NodeIndex * Node) :=
  live_from 0 (Nodes graph).

Definition produces (node : Node) (value : string) : bool :=
  existsb (fun out => String.eqb (Name out) value) (OutputDefs node).

(** The input slots of [consumer] that read an output of [producer]. *)
Fixpoint slots_from (producer : Node) (slot : nat) (inputs : list NodeArg)
  : list nat :=
  match inputs with
  | [] => []
  | arg :: inputs' =>
      (if produces producer (Name arg) then [slot] else [])
        ++ slots_from producer (S slot) inputs'
  end.

(** A value is resolved inside a graph when a live node of the graph
    produces it or the graph declares it as an input. *)
Definition defined_locally (graph : Graph) (value : string) : bool :=
  existsb (fun n => produces (snd n) value) (live_nodes graph)
  || existsb (fun g => String.eqb (Name g) value) (GraphInputs graph).

(** Modelled from the spec: the values a graph takes from the scope around
    it.  A nested subgraph may reference "outer-scope values ... by value
    name (captured values)"; a value consumed in a graph is captured when it
    is neither produced by a node of that graph nor one of its declared
    inputs.  What a subgraph nested deeper captures and this graph does not
    resolve is captured by this graph in turn. *)
Fixpoint captured (graph : Graph) : list NodeArg :=
  List.filter
    (fun arg => negb (defined_locally graph (Name arg)))
    ((fix arena (l : list (option Node)) : list NodeArg :=
        match l with
        | [] => []
        | None :: l' => arena l'
        | Some node :: l' =>
            (InputDefs node
             ++ (fix subgraphs (s : list Graph) : list NodeArg :=
                   match s with
                   | [] => []
                   | g :: s' => captured g ++ subgraphs s'
                   end) (Subgraphs node))
            ++ arena l'
        end) (Nodes graph)).

(** [Node::ImplicitInputDefs]: what the subgraphs of a node read from the
    graph the node lives in. *)
Definition ImplicitInputDefs (node : Node) : list NodeArg :=
  flat_map captured (Subgraphs node).

(** Every value a node consumes: its own inputs, then the implicit ones. *)
Definition reads (node : Node) : list NodeArg :=
  InputDefs node ++ ImplicitInputDefs node.

Fixpoint arena_reads (arena : list (option Node)) : list NodeArg :=
  match arena with
  | [] => []
  | None :: arena' => arena_reads arena'
  | Some node :: arena' => reads node ++ arena_reads arena'
  end.

(** Modelled from the spec: the edge bookkeeping of [Node] is missing from
    the sources.  "An input Value of node B that is also an output Value of
    node A constitutes an edge A->B"; the output edges of a node are the
    (node, input-slot) pairs across the whole graph that reference one of its
    outputs.  A value captured by a subgraph is consumed by the node that
    owns the subgraph, through a slot after its own inputs. *)
Definition OutputEdges (graph : Graph) (node : Node)
  : list (NodeIndex * Node * nat) :=
  flat_map (fun c => map (fun slot => (fst c, snd c, slot))
                         (slots_from node 0 (reads (snd c))))
           (live_nodes graph).

Definition GetOutputEdgesCount (graph : Graph) (node : Node) : nat :=
  length (OutputEdges graph node).

(** [OutputNodesBegin .. OutputNodesEnd]: one consumer per output edge. *)
Definition OutputNodes (graph : Graph) (node : Node)
  : list (NodeIndex * Node) :=
  map fst (OutputEdges graph node).

(** Modelled from the spec: [Graph::GetNodeOutputsInGraphOutputs] is missing
    from the sources; [isGraphOutput] is "true if any of the node's outputs is
    a declared graph-level output".  The result lists the positions of those
    outputs. *)
Fixpoint outputs_in (declared : list NodeArg) (position : nat)
  (outputs : list NodeArg) : list nat :=
  match outputs with
  | [] => []
  | out :: outputs' =>
      (if existsb (fun g => String.eqb (Name g) (Name out)) declared
       then [position] else [])
        ++ outputs_in declared (S position) outputs'
  end.

Definition GetNodeOutputsInGraphOutputs (graph : Graph) (node : Node)
  : list nat :=
  outputs_in (GraphOutputs graph) 0 (OutputDefs node).

(** Modelled from the spec: [GraphViewer::GetNodesInTopologicalOrder] is
    missing from the sources; "any valid topological order is acceptable",
    deterministic per call.  The order is built by repeatedly taking the
    lowest-indexed live node all of whose producers have been emitted. *)
Definition ready (graph : Graph) (emitted : list NodeIndex)
  (candidate : NodeIndex * Node) : bool :=
  negb (existsb (Nat.eqb (fst candidate)) emitted)
  && forallb (fun p =>
        negb (existsb (fun arg => produces (snd p) (Name arg))
                      (reads (snd candidate)))
        || existsb (Nat.eqb (fst p)) emitted)
       (live_nodes graph).

Fixpoint topological_rounds (rounds : nat) (graph : Graph)
  (emitted : list NodeIndex) : list NodeIndex :=
  match rounds with
  | O => emitted
  | S rounds' =>
      match find (ready graph emitted) (live_nodes graph) with
      | Some next => topological_rounds rounds' graph (emitted ++ [fst next])
      | None => emitted
      end
  end.

Definition GetNodesInTopologicalOrder (graph : Graph) : list NodeIndex :=
  topological_rounds (length (Nodes graph)) graph [].

Definition set_node (graph : Graph) (node_index : NodeIndex)
  (slot : option Node) : Graph :=
  mkGraph (<[node_index := slot]> (Nodes graph))
          (GraphInputs graph) (GraphOutputs graph) (name_generator graph).

Definition name_in_use (graph : Graph) (name : string) : bool :=
  existsb (fun n => String.eqb (NodeName (snd n)) name) (live_nodes graph).

Definition numbered (base_name : string) (k : nat) : string :=
  (base_name ++ "_" ++ NilEmpty.string_of_uint (Nat.to_uint k))%string.

(** Modelled from the spec: [Graph::GenerateNodeName] is missing from the
    sources; it "produces a name guaranteed not to collide with any existing
    node name in the graph (monotonic counter ... scoped to the graph's
    lifetime)".  Among [S n] consecutive counter values one is unused by the
    at most [n] live nodes. *)
Definition GenerateNodeName (graph : Graph) (base_name : string)
  : string * Graph :=
  let candidates := seq (name_generator graph) (S (length (Nodes graph))) in
  let k := match find (fun k => negb (name_in_use graph (numbered base_name k)))
                      candidates with
           | Some k => k
           | None => name_generator graph + S (length (Nodes graph))
           end in
  (numbered base_name k,
   mkGraph (Nodes graph) (GraphInputs graph) (GraphOutputs graph) (S k)).

Definition value_produced (graph : Graph) (value : string) : bool :=
  existsb (fun n => produces (snd n) value) (live_nodes graph).

(** Modelled from the spec: [Graph::AddNode] is missing from the sources; it
    "creates a node; fails with NameCollision if a produced output name
    already exists in the graph".  The new node takes the next free index of
    the arena; its operator version is not resolved yet and no execution
    provider is assigned. *)
Definition AddNode (graph : Graph) (name op_type description : string)
  (input_args output_args : list NodeArg) (domain : string)
  : Result (Graph * NodeIndex) :=
  if existsb (fun out => value_produced graph (Name out)) output_args
  then Err NameCollision
  else
    let node := mkNode name op_type description domain (-1)%Z
                       input_args output_args EmptyString [] in
    Ok (mkGraph (Nodes graph ++ [Some node]) (GraphInputs graph)
                (GraphOutputs graph) (name_generator graph),
        length (Nodes graph)).

(** [Node::SetExecutionProviderType] through a reference into the graph. *)
Definition SetExecutionProviderType (graph : Graph) (node_index : NodeIndex)
  (provider : string) : Graph :=
  match GetNode graph node_index with
  | Some n =>
      set_node graph node_index
        (Some (mkNode (NodeName n) (OpType n) (Description n) (Domain n)
                      (SinceVersion n) (InputDefs n) (OutputDefs n)
                      provider (Subgraphs n)))
  | None => graph
  end.

(** Modelled from the spec: [Graph::RemoveNode] is missing from the sources;
    it "deletes a node", leaving a tombstone so that the other indices stay
    valid. *)
Definition RemoveNode (graph : Graph) (node_index : NodeIndex) : Graph :=
  match GetNode graph node_index with
  | Some _ => set_node graph node_index None
  | None => graph
  end.

(** ** graph_utils *)

(** Modelled from the spec: [graph_utils::IsSupportedOptypeVersionAndDomain]
    is missing from the sources; the "operator/version/domain matches the
    required signature". *)
Definition IsSupportedOptypeVersionAndDomain (node : Node) (op_type : string)
  (versions : list Z) (domain : string) : bool :=
  String.eqb (OpType node) op_type
  && existsb (Z.eqb (SinceVersion node)) versions
  && String.eqb (Domain node) domain.

(** Modelled from the spec: [graph_utils::IsSupportedProvider] is missing
    from the sources; "the node's assigned backend is among the set of
    backends the rule declares compatible". *)
Definition IsSupportedProvider (node : Node)
  (compatible_providers : list string) : bool :=
  existsb (String.eqb (ExecutionProviderType node)) compatible_providers.

(** Does [node_index] feed a live node that is not part of [chain]? *)
Definition feeds_outside (graph : Graph) (chain : list NodeIndex)
  (node_index : NodeIndex) : bool :=
  match GetNode graph node_index with
  | Some node =>
      existsb (fun e => negb (existsb (Nat.eqb (fst (fst e))) chain))
              (OutputEdges graph node)
  | None => false
  end.

Definition with_outputs (node : Node) (outputs : list NodeArg) : Node :=
  mkNode (NodeName node) (OpType node) (Description node) (Domain node)
         (SinceVersion node) (InputDefs node) outputs
         (ExecutionProviderType node) (Subgraphs node).

(** Modelled from the spec: [graph_utils::FinalizeNodeFusion] is missing from
    the sources.  It "fuses only when the chain's interior nodes have no
    consumers outside the chain", otherwise it reports a failure "rather than
    attempted"; "the replacement node's outputs become the last matched
    node's outputs verbatim"; then every node of the chain is removed.  The
    replacement has been added by the caller. *)
Definition FinalizeNodeFusion (graph : Graph) (nodes : list NodeIndex)
  (replacement_node : NodeIndex) : Result Graph :=
  if existsb (feeds_outside graph nodes) (removelast nodes)
  then Err DanglingConsumer
  else
    match last nodes ≫= GetNode graph, GetNode graph replacement_node with
    | Some last_node, Some replacement =>
        let moved :=
          set_node graph replacement_node
                   (Some (with_outputs replacement (OutputDefs last_node))) in
        Ok (fold_left RemoveNode nodes moved)
    | _, _ => Err StaleReference
    end.

(** ** The rule: [BiasGelu::ApplyImpl] *)

Section BiasGelu.

Context `{OpSetDomains}.

(** [shape != nullptr && shape->dim_size() == 1] *)
Definition is_rank1 (shape : option TensorShapeProto) : bool :=
  match shape with
  | Some s => Nat.eqb (dim_size s) 1
  | None => false
  end.

(** What the guard clauses of the loop body (lines 26-60) decide for one
    node: [continue], or the operands and the [Gelu] node to fuse with.
    [Faulted] stands for the unchecked [MutableInputDefs()[i]] on a node with
    fewer than two inputs, which a resolved [Add] never has. *)
Inductive MatchResult : Type :=
| NoMatch
| Faulted
| Matched (gelu_input : list NodeArg) (gelu_index : NodeIndex)
          (gelu_node : Node).

Definition BiasGelu_match (self : GraphTransformer) (graph : Graph)
  (node : Node) : MatchResult :=
  if negb (IsSupportedOptypeVersionAndDomain node "Add" [7%Z] kOnnxDomain)
     || negb (IsSupportedProvider node (GetCompatibleExecutionProviders self))
     || negb (Nat.eqb (GetOutputEdgesCount graph node) 1)
  then NoMatch
  else
    match InputDefs node !! 0, InputDefs node !! 1 with
    | Some input0, Some input1 =>
        let add_input1_shape := Shape input0 in
        let add_input2_shape := Shape input1 in
        let gelu_input :=
          if is_rank1 add_input1_shape then Some [input1; input0]
          else if is_rank1 add_input2_shape then Some [input0; input1]
          else None in
        match gelu_input with
        | None => NoMatch
        | Some gelu_input =>
            match OutputNodes graph node with
            | [] => NoMatch
            | (gelu_index, next_node) :: _ =>
                if negb (IsSupportedOptypeVersionAndDomain
                           next_node "Gelu" [1%Z] kMSDomain)
                   || negb (String.eqb (ExecutionProviderType next_node)
                                       (ExecutionProviderType node))
                then NoMatch
                else if negb (match GetNodeOutputsInGraphOutputs graph node
                              with [] => true | _ => false end)
                then NoMatch
                else Matched gelu_input gelu_index next_node
            end
        end
    | _, _ => Faulted
    end.

(** Lines 62-78: add the [BiasGelu] node, give it the provider of the [Gelu]
    node, move the outputs of the [Gelu] node to it and delete the pair. *)
Definition BiasGelu_fuse (graph : Graph) (add_index : NodeIndex)
  (gelu_input : list NodeArg) (gelu_index : NodeIndex) (gelu_node : Node)
  : Result Graph :=
  let '(name, graph1) := GenerateNodeName graph "BiasGelu" in
  match AddNode graph1 name "BiasGelu" "fused Add and Gelu"
                gelu_input [] kMSDomain with
  | Err code => Err code
  | Ok (graph2, gelu_add_fusion_node) =>
      let graph3 :=
        SetExecutionProviderType graph2 gelu_add_fusion_node
                                 (ExecutionProviderType gelu_node) in
      FinalizeNodeFusion graph3 [add_index; gelu_index] gelu_add_fusion_node
  end.

(** Lines 26-80 for the node at [node_index]. *)
Definition match_and_fuse (self : GraphTransformer) (graph : Graph)
  (modified : bool) (node_index : NodeIndex) (node : Node)
  : Status * Graph * bool :=
  match BiasGelu_match self graph node with
  | NoMatch => (OK, graph, modified)
  | Faulted => (FAIL InvalidGraph, graph, modified)
  | Matched gelu_input gelu_index gelu_node =>
      match BiasGelu_fuse graph node_index gelu_input gelu_index gelu_node with
      | Ok graph' => (OK, graph', true)
      | Err code => (FAIL code, graph, modified)
      end
  end.

(** Modelled from the spec: [GraphTransformer::Recurse] is missing from the
    sources; "if the node owns nested subgraphs, the Driver applies itself to
    each nested subgraph first, ... threading a shared modified flag".  The
    first failure stops the walk ([ORT_RETURN_IF_ERROR]). *)
Fixpoint recurse_subgraphs
  (apply : Graph -> bool -> nat -> Status * Graph * bool)
  (subgraphs : list Graph) (modified : bool) (subgraph_level : nat)
  : Status * list Graph * bool :=
  match subgraphs with
  | [] => (OK, [], modified)
  | subgraph :: rest =>
      match apply subgraph modified subgraph_level with
      | (OK, subgraph', modified') =>
          match recurse_subgraphs apply rest modified' subgraph_level with
          | (status, rest', modified'') =>
              (status, subgraph' :: rest', modified'')
          end
      | (FAIL code, subgraph', modified') =>
          (FAIL code, subgraph' :: rest, modified')
      end
  end.

Definition with_subgraphs (node : Node) (subgraphs : list Graph) : Node :=
  mkNode (NodeName node) (OpType node) (Description node) (Domain node)
         (SinceVersion node) (InputDefs node) (OutputDefs node)
         (ExecutionProviderType node) subgraphs.

Definition Recurse (apply : Graph -> bool -> nat -> Status * Graph * bool)
  (node : Node) (modified : bool) (graph_level : nat)
  : Status * Node * bool :=
  let subgraph_level := S graph_level in
  match recurse_subgraphs apply (Subgraphs node) modified subgraph_level with
  | (status, subgraphs', modified') =>
      (status, with_subgraphs node subgraphs', modified')
  end.

(** One iteration of the loop (lines 18-80).  [Recurse] rewrites the
    subgraphs of [node] in place, which is the write-back into the arena. *)
Definition visit (apply : Graph -> bool -> nat -> Status * Graph * bool)
  (self : GraphTransformer) (graph : Graph) (modified : bool)
  (graph_level : nat) (node_index : NodeIndex) : Status * Graph * bool :=
  match GetNode graph node_index with
  | None => (OK, graph, modified)
  | Some node_ptr =>
      match Recurse apply node_ptr modified graph_level with
      | (FAIL code, node, modified') =>
          (FAIL code, set_node graph node_index (Some node), modified')
      | (OK, node, modified') =>
          match_and_fuse self (set_node graph node_index (Some node))
                         modified' node_index node
      end
  end.

(** The loop over [node_topology_list] (line 17). *)
Fixpoint sweep (apply : Graph -> bool -> nat -> Status * Graph * bool)
  (self : GraphTransformer) (node_topology_list : list NodeIndex)
  (graph : Graph) (modified : bool) (graph_level : nat)
  : Status * Graph * bool :=
  match node_topology_list with
  | [] => (OK, graph, modified)
  | node_index :: rest =>
      match visit apply self graph modified graph_level node_index with
      | (OK, graph', modified') =>
          sweep apply self rest graph' modified' graph_level
      | failed => failed
      end
  end.

(** [BiasGelu::ApplyImpl].  [depth] bounds the nesting of subgraphs the
    recursion may descend into; a graph nested deeper than that makes the
    pass stop with [RecursionLimit]. *)
Fixpoint ApplyImpl (depth : nat) (self : GraphTransformer) (graph : Graph)
  (modified : bool) (graph_level : nat) : Status * Graph * bool :=
  match depth with
  | O => (FAIL RecursionLimit, graph, modified)
  | S depth' =>
      let node_topology_list := GetNodesInTopologicalOrder graph in
      sweep (ApplyImpl depth' self) self node_topology_list
            graph modified graph_level
  end.

(** ** Notions used to state the properties *)

(** Everything the guard clauses have established when they let a node
    through. *)
Record Validated (self : GraphTransformer) (graph : Graph) (node : Node)
  (gelu_input : list NodeArg) (gelu_index : NodeIndex) (gelu_node : Node)
  : Prop := {
  v_signature :
    IsSupportedOptypeVersionAndDomain node "Add" [7%Z] kOnnxDomain = true;
  v_provider :
    IsSupportedProvider node (GetCompatibleExecutionProviders self) = true;
  v_edges : GetOutputEdgesCount graph node = 1;
  v_operands :
    exists input0 input1,
      InputDefs node !! 0 = Some input0 /\ InputDefs node !! 1 = Some input1
      /\ (is_rank1 (Shape input0) || is_rank1 (Shape input1) = true)
      /\ gelu_input = if is_rank1 (Shape input0) then [input1; input0]
                      else [input0; input1];
  v_next : head (OutputNodes graph node) = Some (gelu_index, gelu_node);
  v_gelu :
    IsSupportedOptypeVersionAndDomain gelu_node "Gelu" [1%Z] kMSDomain = true;
  v_same_provider :
    ExecutionProviderType gelu_node = ExecutionProviderType node;
  v_not_output : GetNodeOutputsInGraphOutputs graph node = []
}.

(** The node a fusion leaves behind. *)
Definition fused_node (name : string) (gelu_input : list NodeArg)
  (gelu_node : Node) : Node :=
  mkNode name "BiasGelu" "fused Add and Gelu" kMSDomain (-1)%Z gelu_input
         (OutputDefs gelu_node) (ExecutionProviderType gelu_node) [].

Definition fused_graph (graph : Graph) (add_index : NodeIndex)
  (gelu_input : list NodeArg) (gelu_index : NodeIndex) (gelu_node : Node)
  : Graph :=
  let named := GenerateNodeName graph "BiasGelu" in
  mkGraph (<[gelu_index := None]>
             (<[add_index := None]>
                (Nodes graph ++ [Some (fused_node (fst named) gelu_input
                                                  gelu_node)])))
          (GraphInputs graph) (GraphOutputs graph)
          (name_generator (snd named)).

(** Nodes of a graph, those of the nested subgraphs included. *)
Fixpoint total_nodes (graph : Graph) : nat :=
  (fix arena (l : list (option Node)) : nat :=
     match l with
     | [] => 0
     | None :: l' => arena l'
     | Some node :: l' =>
         S ((fix subgraphs (s : list Graph) : nat :=
               match s with
               | [] => 0
               | g :: s' => total_nodes g + subgraphs s'
               end) (Subgraphs node))
         + arena l'
     end) (Nodes graph).

Definition subgraph_nodes (subgraphs : list Graph) : nat :=
  fold_right (fun g acc => total_nodes g + acc) 0 subgraphs.

Definition node_weight (node : Node) : nat :=
  S (subgraph_nodes (Subgraphs node)).

Fixpoint arena_weight (arena : list (option Node)) : nat :=
  match arena with
  | [] => 0
  | None :: arena' => arena_weight arena'
  | Some node :: arena' => node_weight node + arena_weight arena'
  end.

(** How deep subgraphs are nested: 1 for a graph without control flow. *)
Fixpoint nesting_depth (graph : Graph) : nat :=
  S ((fix arena (l : list (option Node)) : nat :=
        match l with
        | [] => 0
        | None :: l' => arena l'
        | Some node :: l' =>
            Nat.max
              ((fix subgraphs (s : list Graph) : nat :=
                  match s with
                  | [] => 0
                  | g :: s' => Nat.max (nesting_depth g) (subgraphs s')
                  end) (Subgraphs node))
              (arena l')
        end) (Nodes graph)).

Definition subgraph_depth (subgraphs : list Graph) : nat :=
  fold_right (fun g acc => Nat.max (nesting_depth g) acc) 0 subgraphs.

Fixpoint arena_depth (arena : list (option Node)) : nat :=
  match arena with
  | [] => 0
  | None :: arena' => arena_depth arena'
  | Some node :: arena' =>
      Nat.max (subgraph_depth (Subgraphs node)) (arena_depth arena')
  end.

(** The discipline [apply] follows on the [modified] flag: the flag is never
    read, it is only ever raised, and it is raised exactly when the graph
    lost nodes to a fusion. *)
Definition flag_discipline
  (apply : Graph -> bool -> nat -> Status * Graph * bool) : Prop :=
  forall graph graph_level,
  exists status graph' fused,
    (forall modified,
        apply graph modified graph_level
        = (status, graph', modified || fused))
    /\ (fused = true -> total_nodes graph' < total_nodes graph)
    /\ (fused = false -> graph' = graph).

(** A pass that stays within [limit] levels of nesting, ends with [OK] or
    with the fault of a malformed [Add], and never deepens the graph. *)
Definition within_depth (limit : nat)
  (apply : Graph -> bool -> nat -> Status * Graph * bool) : Prop :=
  forall graph modified graph_level status graph' modified',
    nesting_depth graph <= limit ->
    apply graph modified graph_level = (status, graph', modified') ->
    (status = OK \/ status = FAIL InvalidGraph)
    /\ nesting_depth graph' <= nesting_depth graph.

(** A resolved graph gives every [Add] node, nested ones included, its two
    inputs. *)
Definition binary_add (node : Node) : bool :=
  negb (String.eqb (OpType node) "Add")
  || Nat.leb 2 (length (InputDefs node)).

Fixpoint adds_are_binary (graph : Graph) : bool :=
  (fix arena (l : list (option Node)) : bool :=
     match l with
     | [] => true
     | None :: l' => arena l'
     | Some node :: l' =>
         binary_add node
         && (fix subgraphs (s : list Graph) : bool :=
               match s with
               | [] => true
               | g :: s' => adds_are_binary g && subgraphs s'
               end) (Subgraphs node)
         && arena l'
     end) (Nodes graph).

Definition subgraphs_binary (subgraphs : list Graph) : bool :=
  forallb adds_are_binary subgraphs.

Definition node_binary (node : Node) : bool :=
  binary_add node && subgraphs_binary (Subgraphs node).

Fixpoint arena_binary (arena : list (option Node)) : bool :=
  match arena with
  | [] => true
  | None :: arena' => arena_binary arena'
  | Some node :: arena' => node_binary node && arena_binary arena'
  end.

(** A pass that keeps every [Add] binary and never faults on one. *)
Definition keeps_adds_binary
  (apply : Graph -> bool -> nat -> Status * Graph * bool) : Prop :=
  forall graph modified graph_level status graph' modified',
    adds_are_binary graph = true ->
    apply graph modified graph_level = (status, graph', modified') ->
    status <> FAIL InvalidGraph /\ adds_are_binary graph' = true.

(** ** Notions used to state the properties of a whole pass *)

(** A node without its subgraphs: what the pass must not touch on a node it
    keeps. *)
Definition interface_of (node : Node) : Node := with_subgraphs node [].

(** The shape of every node the rule creates (lines 35-45 and 65-74). *)
Definition compatible_bias_gelu (self : GraphTransformer) (node : Node)
  : Prop :=
  OpType node = "BiasGelu"
  /\ Domain node = kMSDomain
  /\ IsSupportedProvider node (GetCompatibleExecutionProviders self) = true
  /\ exists main bias,
       InputDefs node = [main; bias] /\ is_rank1 (Shape bias) = true.

(** The two arenas hold the same nodes at the old indices, up to removals
    and rewritten subgraphs, and only [BiasGelu] nodes beyond them. *)
Definition arena_frame (self : GraphTransformer) (graph graph' : Graph)
  : Prop :=
  length (Nodes graph) <= length (Nodes graph')
  /\ (forall i node',
         i < length (Nodes graph) ->
         GetNode graph' i = Some node' ->
         exists node,
           GetNode graph i = Some node
           /\ interface_of node' = interface_of node)
  /\ (forall i node',
         length (Nodes graph) <= i ->
         GetNode graph' i = Some node' ->
         compatible_bias_gelu self node').

(** Nodes that are neither [Add] nor [Gelu] are all still there. *)
Definition bystanders_kept (graph graph' : Graph) : Prop :=
  forall i node,
    GetNode graph i = Some node ->
    OpType node <> "Add" -> OpType node <> "Gelu" ->
    exists node',
      GetNode graph' i = Some node'
      /\ interface_of node' = interface_of node.

(** Slots and live nodes add up to the same number. *)
Definition census_kept (graph graph' : Graph) : Prop :=
  length (Nodes graph') + NumberOfNodes graph'
  = length (Nodes graph) + NumberOfNodes graph.

Definition declared_kept (graph graph' : Graph) : Prop :=
  GraphInputs graph' = GraphInputs graph
  /\ GraphOutputs graph' = GraphOutputs graph.

(** [value] is read by a live node of the graph, as one of its own inputs
    or from inside its subgraphs. *)
Definition consumed (graph : Graph) (value : string) : Prop :=
  exists i node arg,
    GetNode graph i = Some node /\ In arg (reads node)
    /\ Name arg = value.

(** No value that is still read has lost its producer, and nothing is read
    that was not read before. *)
Definition feeds_kept (graph graph' : Graph) : Prop :=
  GraphInputs graph' = GraphInputs graph
  /\ (forall value, consumed graph' value -> consumed graph value)
  /\ (forall value,
         consumed graph' value ->
         value_produced graph value = true ->
         value_produced graph' value = true).

(** A pass that keeps the feeds of every graph it is run on. *)
Definition keeps_feeds
  (apply : Graph -> bool -> nat -> Status * Graph * bool) : Prop :=
  forall graph modified graph_level status graph' modified',
    apply graph modified graph_level = (status, graph', modified') ->
    feeds_kept graph graph'.

(** Every declared output that had a producer still has one. *)
Definition outputs_fed (graph graph' : Graph) : Prop :=
  GraphOutputs graph' = GraphOutputs graph
  /\ (forall declared,
         In declared (GraphOutputs graph) ->
         value_produced graph (Name declared) = true ->
         value_produced graph' (Name declared) = true).

End BiasGelu.

(** ** Sample graphs

    The scenarios of the specification, over the domain names ONNX Runtime
    uses. *)

Definition ort_domains : OpSetDomains :=
  {| kOnnxDomain := EmptyString; kMSDomain := "com.microsoft" |}.

Definition cpu_only : GraphTransformer := mkTransformer ["CPU"].

Definition float_arg (name : string) (dims : list Z) : NodeArg :=
  mkNodeArg name (Some "float") (Some (mkShape (map dim_value dims))).

Definition X : NodeArg := float_arg "X" [2; 2]%Z.
Definition Y : NodeArg := float_arg "Y" [2; 2]%Z.
Definition bias : NodeArg := float_arg "bias" [2]%Z.
Definition bias2 : NodeArg := float_arg "bias2" [2]%Z.
Definition sum : NodeArg := float_arg "sum" [2; 2]%Z.
Definition out : NodeArg := float_arg "out" [2; 2]%Z.
Definition out2 : NodeArg := float_arg "out2" [2; 2]%Z.

Definition add_node (a b : NodeArg) : Node :=
  mkNode "add" "Add" EmptyString EmptyString 7 [a; b] [sum] "CPU" [].

Definition gelu_node : Node :=
  mkNode "gelu" "Gelu" EmptyString "com.microsoft" 1 [sum] [out] "CPU" [].

Definition relu_node : Node :=
  mkNode "relu" "Relu" EmptyString EmptyString 6 [sum] [out2] "CPU" [].

Definition bias_gelu (a b : NodeArg) : Node :=
  mkNode "BiasGelu_0" "BiasGelu" "fused Add and Gelu" "com.microsoft" (-1)
         [a; b] [out] "CPU" [].

(** Scenario A: [Add(bias, X) -> Gelu -> out]. *)
Definition graph_A : Graph :=
  mkGraph [Some (add_node bias X); Some gelu_node] [X; bias] [out] 0.

Definition graph_A_fused : Graph :=
  mkGraph [None; None; Some (bias_gelu X bias)] [X; bias] [out] 1.

(** The bias in the second slot: [Add(X, bias) -> Gelu -> out]. *)
Definition graph_bias_second : Graph :=
  mkGraph [Some (add_node X bias); Some gelu_node] [X; bias] [out] 0.

(** Both operands of rank 1: [Add(bias, bias2) -> Gelu -> out]. *)
Definition graph_two_biases : Graph :=
  mkGraph [Some (add_node bias bias2); Some gelu_node] [bias; bias2] [out] 0.

(** Scenario B: as A, and the output of [Add] is an output of the graph. *)
Definition graph_B : Graph :=
  mkGraph [Some (add_node bias X); Some gelu_node] [X; bias] [out; sum] 0.

(** Scenario C: [Add(X, Y) -> Gelu], no operand of rank 1. *)
Definition graph_C : Graph :=
  mkGraph [Some (add_node X Y); Some gelu_node] [X; Y] [out] 0.

(** Scenario D: [Add] feeds [Gelu] and a second consumer. *)
Definition graph_D : Graph :=
  mkGraph [Some (add_node bias X); Some gelu_node; Some relu_node]
          [X; bias] [out; out2] 0.

(** A [Gelu] node that reads the sum through two input slots. *)
Definition gelu_twice : Node :=
  mkNode "gelu" "Gelu" EmptyString "com.microsoft" 1 [sum; sum] [out] "CPU"
         [].

Definition graph_two_slots : Graph :=
  mkGraph [Some (add_node bias X); Some gelu_twice] [X; bias] [out] 0.

(** Scenario E: the pattern of scenario A inside the body of a loop. *)
Definition loop_node (body : Graph) : Node :=
  mkNode "loop" "Loop" EmptyString EmptyString 1 [] [] "CPU" [body].

Definition graph_E : Graph := mkGraph [Some (loop_node graph_A)] [] [] 0.

Definition graph_E_fused : Graph :=
  mkGraph [Some (loop_node graph_A_fused)] [] [] 0.

(** [Add(bias, X) -> Gelu -> Relu -> out2]: the fused pair has a consumer. *)
Definition relu_after : Node :=
  mkNode "relu" "Relu" EmptyString EmptyString 6 [out] [out2] "CPU" [].

Definition graph_chain : Graph :=
  mkGraph [Some (add_node bias X); Some gelu_node; Some relu_after]
          [X; bias] [out2] 0.

Definition graph_chain_fused : Graph :=
  mkGraph [None; None; Some relu_after; Some (bias_gelu X bias)]
          [X; bias] [out2] 1.

(** A loop whose body reads a value of the graph around it: the body has no
    producer and no declared input for it, so it is captured. *)
Definition body_reading (value : NodeArg) : Graph :=
  mkGraph [Some (mkNode "relu" "Relu" EmptyString EmptyString 6
                        [value] [out2] "CPU" [])] [] [out2] 0.

(** [Add(bias, X) -> Gelu], and the body of a loop reads the sum too. *)
Definition graph_captured_sum : Graph :=
  mkGraph [Some (add_node bias X); Some gelu_node;
           Some (loop_node (body_reading sum))] [X; bias] [out] 0.

(** [Add(bias, X) -> Gelu], and the body of a loop reads the result. *)
Definition graph_captured_out : Graph :=
  mkGraph [Some (add_node bias X); Some gelu_node;
           Some (loop_node (body_reading out))] [X; bias] [out] 0.

Definition graph_captured_out_fused : Graph :=
  mkGraph [None; None; Some (loop_node (body_reading out));
           Some (bias_gelu X bias)] [X; bias] [out] 1.

(** * Properties *)

(** ** Arena lemmas *)

Lemma live_from_app base l1 l2 :
  live_from base (l1 ++ l2)
  = live_from base l1 ++ live_from (base + length l1) l2.
Proof.
  revert base; induction l1 as [|[n|] l1 IH]; intros base; simpl.
  - by rewrite Nat.add_0_r.
  - rewrite IH. do 3 f_equal. lia.
  - rewrite IH. do 2 f_equal. lia.
Qed.

Lemma In_live_from base l i n :
  In (i, n) (live_from base l) <-> base <= i /\ l !! (i - base) = Some (Some n).
Proof.
  revert base; induction l as [|[m|] l IH]; intros base; simpl.
  - split; [tauto|]. intros [_ Hl]. by rewrite lookup_nil in Hl.
  - rewrite IH. split.
    + intros [Heq|[Hle Hl]].
      * inversion Heq; subst. split; [lia|]. by rewrite Nat.sub_diag.
      * split; [lia|]. replace (i - base) with (S (i - S base)) by lia. done.
    + intros [Hle Hl]. destruct (decide (i = base)) as [->|Hne].
      * left. rewrite Nat.sub_diag in Hl. simpl in Hl. by simplify_eq.
      * right. split; [lia|].
        replace (i - base) with (S (i - S base)) in Hl by lia. done.
  - rewrite IH. split.
    + intros [Hle Hl]. split; [lia|].
      replace (i - base) with (S (i - S base)) by lia. done.
    + intros [Hle Hl]. destruct (decide (i = base)) as [->|Hne].
      * rewrite Nat.sub_diag in Hl. simpl in Hl. by simplify_eq.
      * split; [lia|].
        replace (i - base) with (S (i - S base)) in Hl by lia. done.
Qed.

Lemma In_live_nodes graph i n :
  In (i, n) (live_nodes graph) <-> GetNode graph i = Some n.
Proof.
  unfold live_nodes, GetNode. rewrite In_live_from, Nat.sub_0_r.
  split.
  - intros [_ ->]. done.
  - destruct (Nodes graph !! i) as [[m|]|]; intros Heq; try done.
    split; [lia|]. congruence.
Qed.

Lemma GetNode_lt graph i n : GetNode graph i = Some n -> i < length (Nodes graph).
Proof.
  unfold GetNode. destruct (Nodes graph !! i) as [o|] eqn:Hl; [|done].
  intros _. eapply lookup_lt_Some; eauto.
Qed.

Lemma GetNode_lookup graph i n :
  GetNode graph i = Some n <-> Nodes graph !! i = Some (Some n).
Proof.
  unfold GetNode. destruct (Nodes graph !! i) as [[m|]|]; split; congruence.
Qed.

Lemma GetNode_set_node graph i slot :
  i < length (Nodes graph) ->
  GetNode (set_node graph i slot) i = slot.
Proof.
  intros Hlt. unfold GetNode, set_node. simpl.
  rewrite list_lookup_insert_eq by done. by destruct slot.
Qed.

(** ** Edges *)

Lemma slots_from_nil producer slot inputs :
  slots_from producer slot inputs = []
  <-> forall arg, In arg inputs -> produces producer (Name arg) = false.
Proof.
  revert slot; induction inputs as [|a inputs IH]; intros slot; simpl.
  - split; [tauto | done].
  - destruct (produces producer (Name a)) eqn:Hp; simpl.
    + split; [done|]. intros Hall. specialize (Hall a (or_introl eq_refl)).
      congruence.
    + rewrite IH. split.
      * intros Hall arg [<-|Hin]; auto.
      * intros Hall arg Hin. apply Hall. by right.
Qed.

Lemma In_OutputEdges graph node i c slot :
  In (i, c, slot) (OutputEdges graph node)
  <-> GetNode graph i = Some c /\ In slot (slots_from node 0 (reads c)).
Proof.
  unfold OutputEdges. rewrite in_flat_map. split.
  - intros [[j d] [Hlive Hin]]. simpl in Hin. apply in_map_iff in Hin.
    destruct Hin as [s [Heq Hs]]. simplify_eq.
    split; [by apply In_live_nodes | done].
  - intros [Hget Hs]. exists (i, c). split; [by apply In_live_nodes|].
    simpl. apply in_map_iff. by exists slot.
Qed.

(** A node that reads one of its own outputs is among its own consumers. *)
Lemma self_edge graph i node arg :
  GetNode graph i = Some node ->
  In arg (reads node) ->
  produces node (Name arg) = true ->
  exists slot, In (i, node, slot) (OutputEdges graph node).
Proof.
  intros Hget Hin Hp.
  destruct (slots_from node 0 (reads node)) as [|slot rest] eqn:Hs.
  - rewrite (proj1 (slots_from_nil _ _ _) Hs arg Hin) in Hp. done.
  - exists slot. apply In_OutputEdges. split; [done|]. rewrite Hs. by left.
Qed.

Lemma OutputEdges_single graph node gelu_index gelu_node :
  GetOutputEdgesCount graph node = 1 ->
  head (OutputNodes graph node) = Some (gelu_index, gelu_node) ->
  exists slot, OutputEdges graph node = [(gelu_index, gelu_node, slot)].
Proof.
  unfold GetOutputEdgesCount, OutputNodes.
  destruct (OutputEdges graph node) as [|[[i c] s] [|e rest]]; simpl; try done.
  intros _ Heq. simplify_eq. by exists s.
Qed.

(** ** Counting nodes *)

Lemma live_count_app l1 l2 :
  live_count (l1 ++ l2) = live_count l1 + live_count l2.
Proof. induction l1 as [|[n|] l1 IH]; simpl; lia. Qed.

Lemma live_count_tombstone l i n :
  l !! i = Some (Some n) -> live_count (<[i := None]> l) + 1 = live_count l.
Proof.
  revert i; induction l as [|[m|] l IH]; intros [|i] Hl; simpl in *;
    try done; try lia.
  - specialize (IH i Hl). lia.
  - by apply IH.
Qed.

Lemma live_count_overwrite l i n n' :
  l !! i = Some (Some n) -> live_count (<[i := Some n']> l) = live_count l.
Proof.
  revert i; induction l as [|[m|] l IH]; intros [|i] Hl; simpl in *;
    try done.
  - f_equal. by apply IH.
  - by apply IH.
Qed.

Lemma RemoveNode_count graph i :
  is_Some (GetNode graph i) ->
  NumberOfNodes (RemoveNode graph i) + 1 = NumberOfNodes graph.
Proof.
  intros [n Hn]. unfold RemoveNode. rewrite Hn.
  apply GetNode_lookup in Hn. unfold NumberOfNodes. simpl.
  by eapply live_count_tombstone.
Qed.

Lemma RemoveNode_other graph i j :
  i <> j -> GetNode (RemoveNode graph i) j = GetNode graph j.
Proof.
  intros Hne. unfold RemoveNode. destruct (GetNode graph i); [|done].
  unfold GetNode, set_node. simpl. by rewrite list_lookup_insert_ne.
Qed.

Lemma RemoveNode_frame graph i :
  length (Nodes (RemoveNode graph i)) = length (Nodes graph)
  /\ GraphOutputs (RemoveNode graph i) = GraphOutputs graph
  /\ GraphInputs (RemoveNode graph i) = GraphInputs graph.
Proof.
  unfold RemoveNode. destruct (GetNode graph i); [|done].
  simpl. by rewrite length_insert.
Qed.

Lemma remove_chain_count chain : forall graph,
  NoDup chain ->
  (forall i, In i chain -> is_Some (GetNode graph i)) ->
  NumberOfNodes (fold_left RemoveNode chain graph) + length chain
  = NumberOfNodes graph.
Proof.
  induction chain as [|a chain IH]; intros graph Hnd Hlive; simpl; [lia|].
  apply NoDup_cons in Hnd as [Hnotin Hnd].
  rewrite <- (RemoveNode_count graph a) by (apply Hlive; by left).
  rewrite <- (IH (RemoveNode graph a)); [lia|done|].
  intros i Hin. rewrite RemoveNode_other; [apply Hlive; by right|].
  intros ->. apply Hnotin. by apply list_elem_of_In.
Qed.

Lemma remove_chain_frame chain : forall graph,
  length (Nodes (fold_left RemoveNode chain graph)) = length (Nodes graph)
  /\ GraphOutputs (fold_left RemoveNode chain graph) = GraphOutputs graph.
Proof.
  induction chain as [|a chain IH]; intros graph; simpl; [done|].
  destruct (IH (RemoveNode graph a)) as [-> ->].
  destruct (RemoveNode_frame graph a) as (-> & -> & _). done.
Qed.

Lemma remove_chain_other chain : forall graph j,
  ~ In j chain ->
  GetNode (fold_left RemoveNode chain graph) j = GetNode graph j.
Proof.
  induction chain as [|a chain IH]; intros graph j Hnotin; simpl; [done|].
  rewrite IH by (intros Hin; apply Hnotin; by right).
  apply RemoveNode_other. intros ->. apply Hnotin. by left.
Qed.

Lemma AddNode_spec graph name op_type description inputs outputs domain
  graph' fresh :
  AddNode graph name op_type description inputs outputs domain
  = Ok (graph', fresh) ->
  fresh = length (Nodes graph)
  /\ Nodes graph'
     = Nodes graph ++ [Some (mkNode name op_type description domain (-1)%Z
                                    inputs outputs EmptyString [])]
  /\ GraphOutputs graph' = GraphOutputs graph.
Proof.
  unfold AddNode. destruct (existsb _ outputs); [done|].
  intros Heq. by simplify_eq.
Qed.

Lemma SetExecutionProviderType_frame graph i provider :
  NumberOfNodes (SetExecutionProviderType graph i provider)
  = NumberOfNodes graph
  /\ length (Nodes (SetExecutionProviderType graph i provider))
     = length (Nodes graph)
  /\ GraphOutputs (SetExecutionProviderType graph i provider)
     = GraphOutputs graph
  /\ forall j, is_Some (GetNode (SetExecutionProviderType graph i provider) j)
               <-> is_Some (GetNode graph j).
Proof.
  unfold SetExecutionProviderType. destruct (GetNode graph i) as [n|] eqn:Hn;
    [|done].
  pose proof (GetNode_lt _ _ _ Hn) as Hlt. apply GetNode_lookup in Hn.
  unfold NumberOfNodes, set_node, GetNode. simpl.
  rewrite length_insert. split; [by eapply live_count_overwrite|].
  do 2 (split; [done|]). intros j. destruct (decide (i = j)) as [->|Hne].
  - rewrite list_lookup_insert_eq by done. rewrite Hn. done.
  - by rewrite list_lookup_insert_ne.
Qed.

(** A successful [FinalizeNodeFusion] removes the whole chain and nothing
    else. *)
Lemma FinalizeNodeFusion_count graph chain replacement graph' :
  FinalizeNodeFusion graph chain replacement = Ok graph' ->
  NoDup chain ->
  (forall i, In i chain -> is_Some (GetNode graph i)) ->
  ~ In replacement chain ->
  NumberOfNodes graph' + length chain = NumberOfNodes graph.
Proof.
  unfold FinalizeNodeFusion. destruct (existsb _ _); [done|].
  destruct (last chain ≫= GetNode graph) as [last_node|]; [|done].
  destruct (GetNode graph replacement) as [r|] eqn:Hr; [|done].
  intros Heq Hnd Hlive Hnotin. simplify_eq.
  apply GetNode_lookup in Hr.
  rewrite remove_chain_count; [|done|].
  - unfold NumberOfNodes, set_node. simpl. by eapply live_count_overwrite.
  - intros i Hin. unfold GetNode, set_node. simpl.
    rewrite list_lookup_insert_ne by (intros ->; done). by apply Hlive.
Qed.

Lemma FinalizeNodeFusion_frame graph chain replacement graph' :
  FinalizeNodeFusion graph chain replacement = Ok graph' ->
  length (Nodes graph') = length (Nodes graph)
  /\ GraphOutputs graph' = GraphOutputs graph.
Proof.
  unfold FinalizeNodeFusion. destruct (existsb _ _); [done|].
  destruct (last chain ≫= GetNode graph); [|done].
  destruct (GetNode graph replacement); [|done].
  intros Heq. simplify_eq.
  destruct (remove_chain_frame chain
              (set_node graph replacement
                        (Some (with_outputs n0 (OutputDefs n)))))
    as [-> ->].
  simpl. by rewrite length_insert.
Qed.

(** ** The guard clauses *)

Section Matching.

Context `{OpSetDomains}.

Lemma BiasGelu_match_Matched self graph node gelu_input gelu_index gelu_node :
  BiasGelu_match self graph node = Matched gelu_input gelu_index gelu_node
  <-> Validated self graph node gelu_input gelu_index gelu_node.
Proof.
  unfold BiasGelu_match. split.
  - destruct (IsSupportedOptypeVersionAndDomain node "Add" _ _) eqn:Hsig;
      [|done].
    destruct (IsSupportedProvider node _) eqn:Hprov; [|done].
    destruct (Nat.eqb (GetOutputEdgesCount graph node) 1) eqn:Hcnt; [|done].
    apply Nat.eqb_eq in Hcnt. simpl.
    destruct (InputDefs node !! 0) as [input0|] eqn:H0; [|done].
    destruct (InputDefs node !! 1) as [input1|] eqn:H1; [|done].
    destruct (OutputNodes graph node) as [|[i c] rest] eqn:Hnext.
    { by destruct (is_rank1 (Shape input0)), (is_rank1 (Shape input1)). }
    destruct (IsSupportedOptypeVersionAndDomain c "Gelu" _ _) eqn:Hgelu;
      [|by destruct (is_rank1 (Shape input0)), (is_rank1 (Shape input1))].
    destruct (String.eqb (ExecutionProviderType c) _) eqn:Hep;
      [|by destruct (is_rank1 (Shape input0)), (is_rank1 (Shape input1))].
    apply String.eqb_eq in Hep.
    destruct (GetNodeOutputsInGraphOutputs graph node) eqn:Hout;
      [|by destruct (is_rank1 (Shape input0)), (is_rank1 (Shape input1))].
    simpl. intros Hm.
    assert (gelu_index = i /\ gelu_node = c
            /\ (is_rank1 (Shape input0) || is_rank1 (Shape input1) = true)
            /\ gelu_input = if is_rank1 (Shape input0) then [input1; input0]
                            else [input0; input1]) as (-> & -> & Hr & Hgi).
    { destruct (is_rank1 (Shape input0)), (is_rank1 (Shape input1));
        simplify_eq; done. }
    split; try done.
    + exists input0, input1. done.
    + by rewrite Hnext.
  - intros [Hsig Hprov Hcnt (input0 & input1 & H0 & H1 & Hr & Hgi)
                  Hnext Hgelu Hep Hout].
    rewrite Hsig, Hprov, Hcnt, H0, H1, Hout. simpl.
    destruct (OutputNodes graph node) as [|[i c] rest]; simpl in Hnext;
      simplify_eq.
    rewrite Hgelu, Hep, String.eqb_refl. simpl.
    by destruct (is_rank1 (Shape input0)), (is_rank1 (Shape input1)).
Qed.

Lemma Validated_edges self graph node gelu_input gelu_index gelu_node :
  Validated self graph node gelu_input gelu_index gelu_node ->
  exists slot, OutputEdges graph node = [(gelu_index, gelu_node, slot)].
Proof.
  intros V. eapply OutputEdges_single; [apply (v_edges _ _ _ _ _ _ V)|].
  apply (v_next _ _ _ _ _ _ V).
Qed.

Lemma Validated_gelu_live self graph node gelu_input gelu_index gelu_node :
  Validated self graph node gelu_input gelu_index gelu_node ->
  GetNode graph gelu_index = Some gelu_node.
Proof.
  intros V. destruct (Validated_edges _ _ _ _ _ _ V) as [slot He].
  apply (In_OutputEdges graph node gelu_index gelu_node slot).
  rewrite He. by left.
Qed.

Lemma Validated_op_types self graph node gelu_input gelu_index gelu_node :
  Validated self graph node gelu_input gelu_index gelu_node ->
  OpType node = "Add" /\ OpType gelu_node = "Gelu".
Proof.
  intros V. pose proof (v_signature _ _ _ _ _ _ V) as Ha.
  pose proof (v_gelu _ _ _ _ _ _ V) as Hg.
  unfold IsSupportedOptypeVersionAndDomain in Ha, Hg.
  apply andb_prop in Ha as [Ha _]. apply andb_prop in Ha as [Ha _].
  apply andb_prop in Hg as [Hg _]. apply andb_prop in Hg as [Hg _].
  apply String.eqb_eq in Ha, Hg. done.
Qed.

Lemma Validated_distinct self graph node gelu_input gelu_index gelu_node i :
  Validated self graph node gelu_input gelu_index gelu_node ->
  GetNode graph i = Some node ->
  i <> gelu_index.
Proof.
  intros V Hget ->. destruct (Validated_op_types _ _ _ _ _ _ V) as [Ha Hg].
  rewrite (Validated_gelu_live _ _ _ _ _ _ V) in Hget. simplify_eq.
  rewrite Ha in Hg. discriminate.
Qed.

(** The [Add] node does not read its own output: its only consumer is the
    [Gelu] node. *)
Lemma Validated_no_self_edge self graph node gelu_input gelu_index gelu_node i :
  Validated self graph node gelu_input gelu_index gelu_node ->
  GetNode graph i = Some node ->
  slots_from node 0 gelu_input = [].
Proof.
  intros V Hget. destruct (Validated_edges _ _ _ _ _ _ V) as [slot He].
  assert (forall arg, In arg (InputDefs node) ->
                      produces node (Name arg) = false) as Hfree.
  { intros arg Hin. destruct (produces node (Name arg)) eqn:Hp; [|done].
    destruct (self_edge graph i node arg Hget
                (in_or_app _ _ _ (or_introl Hin)) Hp) as [s Hs].
    rewrite He in Hs. destruct Hs as [Hs|[]]. simplify_eq.
    by destruct (Validated_distinct _ _ _ _ _ _ _ V Hget). }
  destruct (v_operands _ _ _ _ _ _ V) as (in0 & in1 & H0 & H1 & _ & ->).
  apply list_elem_of_lookup_2, list_elem_of_In in H0, H1.
  apply slots_from_nil. intros arg Hin. apply Hfree.
  destruct (is_rank1 (Shape in0)); simpl in Hin; intuition (subst; done).
Qed.

(** *** The rewrite *)

Lemma reads_leaf node : Subgraphs node = [] -> reads node = InputDefs node.
Proof.
  intros Hleaf. unfold reads, ImplicitInputDefs. rewrite Hleaf. simpl.
  apply app_nil_r.
Qed.

Lemma OutputEdges_snoc l ins outs gen fresh node :
  OutputEdges (mkGraph (l ++ [Some fresh]) ins outs gen) node
  = OutputEdges (mkGraph l ins outs gen) node
    ++ map (fun slot => (length l, fresh, slot))
           (slots_from node 0 (reads fresh)).
Proof.
  unfold OutputEdges, live_nodes. simpl. rewrite live_from_app, flat_map_app.
  simpl. by rewrite app_nil_r.
Qed.

Lemma GenerateNodeName_frame graph base_name :
  let graph' := snd (GenerateNodeName graph base_name) in
  Nodes graph' = Nodes graph /\ GraphInputs graph' = GraphInputs graph
  /\ GraphOutputs graph' = GraphOutputs graph.
Proof. done. Qed.

Lemma BiasGelu_fuse_ok graph add_index node gelu_input gelu_index gelu_node slot :
  GetNode graph add_index = Some node ->
  GetNode graph gelu_index = Some gelu_node ->
  add_index <> gelu_index ->
  OutputEdges graph node = [(gelu_index, gelu_node, slot)] ->
  slots_from node 0 gelu_input = [] ->
  BiasGelu_fuse graph add_index gelu_input gelu_index gelu_node
  = Ok (fused_graph graph add_index gelu_input gelu_index gelu_node).
Proof.
  intros Hadd Hgelu Hne Hedges Hfree.
  pose proof (GetNode_lt _ _ _ Hadd) as Hlt_add.
  pose proof (GetNode_lt _ _ _ Hgelu) as Hlt_gelu.
  apply GetNode_lookup in Hadd, Hgelu.
  unfold BiasGelu_fuse, fused_graph.
  pose proof (GenerateNodeName_frame graph "BiasGelu") as (Hn & Hi & Ho).
  destruct (GenerateNodeName graph "BiasGelu") as [name graph1].
  unfold OutputEdges, live_nodes in Hedges.
  destruct graph1 as [arena ins outs k]. simpl in *.
  rewrite <- Hn in *. rewrite <- Hi, <- Ho. clear Hn Hi Ho.
  unfold AddNode. simpl.
  set (fresh := mkNode _ _ _ _ _ _ _ _ _).
  unfold SetExecutionProviderType, GetNode. simpl.
  rewrite lookup_app_r, Nat.sub_diag by lia. simpl.
  unfold set_node. simpl.
  rewrite insert_app_r_alt, Nat.sub_diag by lia. simpl.
  unfold FinalizeNodeFusion. simpl.
  unfold feeds_outside, GetNode. simpl.
  rewrite !lookup_app_l by lia. rewrite Hadd, Hgelu.
  rewrite lookup_app_r, Nat.sub_diag by lia. simpl.
  rewrite OutputEdges_snoc, reads_leaf by done. simpl.
  unfold OutputEdges at 1, live_nodes. simpl.
  rewrite Hedges, Hfree. simpl.
  rewrite Nat.eqb_refl, orb_true_r. simpl.
  unfold RemoveNode, GetNode, set_node, with_outputs. simpl.
  rewrite insert_app_r_alt, Nat.sub_diag by lia. simpl.
  rewrite lookup_app_l, Hadd by lia. simpl.
  rewrite list_lookup_insert_ne by done.
  rewrite lookup_app_l, Hgelu by lia. simpl.
  reflexivity.
Qed.

Lemma fused_graph_facts graph add_index node gelu_input gelu_index gelu_node :
  GetNode graph add_index = Some node ->
  GetNode graph gelu_index = Some gelu_node ->
  add_index <> gelu_index ->
  let graph' := fused_graph graph add_index gelu_input gelu_index gelu_node in
  GetNode graph' (length (Nodes graph))
  = Some (fused_node (fst (GenerateNodeName graph "BiasGelu"))
                     gelu_input gelu_node)
  /\ NumberOfNodes graph' + 1 = NumberOfNodes graph
  /\ length (Nodes graph') = S (length (Nodes graph))
  /\ GraphOutputs graph' = GraphOutputs graph
  /\ GetNode graph' add_index = None
  /\ GetNode graph' gelu_index = None.
Proof.
  intros Hadd Hgelu Hne.
  pose proof (GetNode_lt _ _ _ Hadd) as Hlt_add.
  pose proof (GetNode_lt _ _ _ Hgelu) as Hlt_gelu.
  apply GetNode_lookup in Hadd, Hgelu.
  unfold fused_graph, GetNode, NumberOfNodes. simpl.
  set (fresh := fused_node _ _ _).
  assert ((<[add_index:=None]> (Nodes graph ++ [Some fresh])) !! gelu_index
          = Some (Some gelu_node)) as Hgelu'.
  { rewrite list_lookup_insert_ne by done. by rewrite lookup_app_l. }
  assert ((Nodes graph ++ [Some fresh]) !! add_index = Some (Some node))
    as Hadd' by (by rewrite lookup_app_l).
  repeat split.
  - rewrite !list_lookup_insert_ne by lia.
    rewrite lookup_app_r, Nat.sub_diag by lia. done.
  - pose proof (live_count_tombstone _ _ _ Hgelu') as H1.
    pose proof (live_count_tombstone _ _ _ Hadd') as H2.
    rewrite live_count_app in H2. simpl in H2. lia.
  - rewrite !length_insert, length_app. simpl. lia.
  - destruct (decide (add_index = gelu_index)); [done|].
    rewrite list_lookup_insert_ne by done.
    rewrite list_lookup_insert_eq; [done|]. rewrite length_app. lia.
  - rewrite list_lookup_insert_eq; [done|].
    rewrite length_insert, length_app. lia.
Qed.

(** Once the guard clauses let a node through, the rewrite cannot fail. *)
Lemma fuse_after_match self graph add_index node gelu_input gelu_index
  gelu_node :
  GetNode graph add_index = Some node ->
  BiasGelu_match self graph node = Matched gelu_input gelu_index gelu_node ->
  BiasGelu_fuse graph add_index gelu_input gelu_index gelu_node
  = Ok (fused_graph graph add_index gelu_input gelu_index gelu_node).
Proof.
  intros Hadd Hm. apply BiasGelu_match_Matched in Hm.
  destruct (Validated_edges _ _ _ _ _ _ Hm) as [slot He].
  eapply BiasGelu_fuse_ok; eauto.
  - eapply Validated_gelu_live; eauto.
  - eapply Validated_distinct; eauto.
  - eapply Validated_no_self_edge; eauto.
Qed.

Lemma match_and_fuse_Matched self graph modified add_index node gelu_input
  gelu_index gelu_node :
  GetNode graph add_index = Some node ->
  BiasGelu_match self graph node = Matched gelu_input gelu_index gelu_node ->
  match_and_fuse self graph modified add_index node
  = (OK, fused_graph graph add_index gelu_input gelu_index gelu_node, true).
Proof.
  intros Hadd Hm. unfold match_and_fuse. rewrite Hm.
  by rewrite (fuse_after_match _ _ _ _ _ _ _ Hadd Hm).
Qed.

(** What a successful match leaves in the graph: the replacement node at the
    first free index of the arena. *)
Lemma fusion_result self graph modified add_index node gelu_input gelu_index
  gelu_node :
  GetNode graph add_index = Some node ->
  BiasGelu_match self graph node = Matched gelu_input gelu_index gelu_node ->
  exists graph' name,
    match_and_fuse self graph modified add_index node = (OK, graph', true)
    /\ GetNode graph' (length (Nodes graph))
       = Some (fused_node name gelu_input gelu_node)
    /\ NumberOfNodes graph' + 1 = NumberOfNodes graph
    /\ length (Nodes graph') = S (length (Nodes graph))
    /\ GraphOutputs graph' = GraphOutputs graph
    /\ GetNode graph' add_index = None
    /\ GetNode graph' gelu_index = None.
Proof.
  intros Hadd Hm.
  exists (fused_graph graph add_index gelu_input gelu_index gelu_node),
         (fst (GenerateNodeName graph "BiasGelu")).
  split; [by apply match_and_fuse_Matched|].
  pose proof Hm as V. apply BiasGelu_match_Matched in V.
  eapply fused_graph_facts; eauto.
  - eapply Validated_gelu_live; eauto.
  - eapply Validated_distinct; eauto.
Qed.

Lemma match_and_fuse_NoMatch self graph modified node_index node :
  BiasGelu_match self graph node = NoMatch ->
  match_and_fuse self graph modified node_index node = (OK, graph, modified).
Proof. intros Hm. unfold match_and_fuse. by rewrite Hm. Qed.

Lemma outputs_in_nil declared position outputs :
  outputs_in declared position outputs = []
  <-> forall out g, In out outputs -> In g declared -> Name g <> Name out.
Proof.
  revert position; induction outputs as [|o outputs IH]; intros position;
    simpl.
  - split; [intros _ out g []|done].
  - destruct (existsb _ declared) eqn:Hex; simpl.
    + split; [done|]. intros Hall. apply existsb_exists in Hex.
      destruct Hex as [g [Hg Heq]]. apply String.eqb_eq in Heq.
      destruct (Hall o g (or_introl eq_refl) Hg Heq).
    + rewrite IH. split.
      * intros Hall out g [<-|Hin] Hg; [|by apply Hall].
        intros Heq. apply not_true_iff_false in Hex. apply Hex.
        apply existsb_exists. exists g. split; [done|].
        by apply String.eqb_eq.
      * intros Hall out g Hin Hg. apply Hall; [by right|done].
Qed.

(** ** The claims about one candidate *)

(** C1: on every successful fusion the [BiasGelu] node reads
    [main operand; bias vector] in that order, whether the rank-1 bias was
    the first or the second input of the [Add] node. *)
Theorem replacement_inputs_main_then_bias self graph modified add_index node
  gelu_input gelu_index gelu_node :
  GetNode graph add_index = Some node ->
  BiasGelu_match self graph node = Matched gelu_input gelu_index gelu_node ->
  exists main bias graph' replacement,
    is_rank1 (Shape bias) = true
    /\ ((InputDefs node !! 0 = Some bias /\ InputDefs node !! 1 = Some main)
        \/ (InputDefs node !! 0 = Some main /\ InputDefs node !! 1 = Some bias
            /\ is_rank1 (Shape main) = false))
    /\ match_and_fuse self graph modified add_index node = (OK, graph', true)
    /\ GetNode graph' (length (Nodes graph)) = Some replacement
    /\ OpType replacement = "BiasGelu"
    /\ InputDefs replacement = [main; bias].
Proof.
  intros Hadd Hm.
  destruct (fusion_result self graph modified _ _ _ _ _ Hadd Hm)
    as (graph' & name & Hrun & Hnew & _).
  apply BiasGelu_match_Matched in Hm.
  destruct (v_operands _ _ _ _ _ _ Hm) as (in0 & in1 & H0 & H1 & Hr & Hgi).
  destruct (is_rank1 (Shape in0)) eqn:Hr0; simpl in Hr; subst gelu_input.
  - exists in1, in0, graph', (fused_node name [in1; in0] gelu_node).
    repeat split; auto.
  - exists in0, in1, graph', (fused_node name [in0; in1] gelu_node).
    repeat split; auto.
Qed.

(** C2 (amended): the first input of the [Add] node is checked first; when it
    has a known rank-1 shape it is the bias and becomes input 1 of the
    replacement node, the other operand becoming input 0; only otherwise is
    the second input checked, and then the inputs keep their order.  When
    both inputs have rank 1 the first is the bias. *)
Theorem bias_is_first_qualifying_input self graph modified add_index node
  gelu_input gelu_index gelu_node input0 input1 :
  GetNode graph add_index = Some node ->
  BiasGelu_match self graph node = Matched gelu_input gelu_index gelu_node ->
  InputDefs node !! 0 = Some input0 ->
  InputDefs node !! 1 = Some input1 ->
  exists graph' replacement,
    match_and_fuse self graph modified add_index node = (OK, graph', true)
    /\ GetNode graph' (length (Nodes graph)) = Some replacement
    /\ (is_rank1 (Shape input0) = true ->
        InputDefs replacement = [input1; input0])
    /\ (is_rank1 (Shape input0) = false ->
        is_rank1 (Shape input1) = true
        /\ InputDefs replacement = [input0; input1]).
Proof.
  intros Hadd Hm H0 H1.
  destruct (fusion_result self graph modified _ _ _ _ _ Hadd Hm)
    as (graph' & name & Hrun & Hnew & _).
  apply BiasGelu_match_Matched in Hm.
  destruct (v_operands _ _ _ _ _ _ Hm) as (in0 & in1 & H0' & H1' & Hr & Hgi).
  assert (in0 = input0) as -> by congruence.
  assert (in1 = input1) as -> by congruence.
  exists graph', (fused_node name gelu_input gelu_node).
  split; [done|]. split; [done|].
  split; intros Hr0; rewrite Hr0 in *; simpl in *; subst gelu_input; done.
Qed.

(** C3 (amended): fusion is attempted only when at least one of the two
    inputs of the [Add] node has a known shape of rank 1; a shape qualifies
    exactly when it is present and has one dimension, whatever that dimension
    is; when neither input qualifies the rule declines and leaves the graph
    and the flag as they are; when one or both inputs qualify and the other
    guards hold, the node is fused, the first qualifying input being the
    bias. *)
Theorem rank1_operand_required self graph modified add_index node input0
  input1 :
  InputDefs node !! 0 = Some input0 ->
  InputDefs node !! 1 = Some input1 ->
  (forall shape,
      is_rank1 shape = true <-> exists d, shape = Some (mkShape [d]))
  /\ (forall gelu_input gelu_index gelu_node,
         BiasGelu_match self graph node
         = Matched gelu_input gelu_index gelu_node ->
         is_rank1 (Shape input0) = true \/ is_rank1 (Shape input1) = true)
  /\ (is_rank1 (Shape input0) = false ->
      is_rank1 (Shape input1) = false ->
      BiasGelu_match self graph node = NoMatch
      /\ match_and_fuse self graph modified add_index node
         = (OK, graph, modified))
  /\ (forall gelu_index gelu_node slot,
         GetNode graph add_index = Some node ->
         IsSupportedOptypeVersionAndDomain node "Add" [7%Z] kOnnxDomain
         = true ->
         IsSupportedProvider node (GetCompatibleExecutionProviders self)
         = true ->
         OutputEdges graph node = [(gelu_index, gelu_node, slot)] ->
         IsSupportedOptypeVersionAndDomain gelu_node "Gelu" [1%Z] kMSDomain
         = true ->
         ExecutionProviderType gelu_node = ExecutionProviderType node ->
         GetNodeOutputsInGraphOutputs graph node = [] ->
         is_rank1 (Shape input0) = true \/ is_rank1 (Shape input1) = true ->
         exists graph',
           BiasGelu_match self graph node
           = Matched (if is_rank1 (Shape input0) then [input1; input0]
                      else [input0; input1])
                     gelu_index gelu_node
           /\ match_and_fuse self graph modified add_index node
              = (OK, graph', true)
           /\ NumberOfNodes graph' + 1 = NumberOfNodes graph).
Proof.
  intros H0 H1. split; [|split; [|split]].
  - intros [[[|d [|d' dims]]]|]; unfold is_rank1, dim_size; simpl;
      split; try done; try (intros [d0 Hd]; by simplify_eq).
    intros _. by exists d.
  - intros gelu_input gelu_index gelu_node Hm.
    apply BiasGelu_match_Matched in Hm.
    destruct (v_operands _ _ _ _ _ _ Hm) as (in0 & in1 & H0' & H1' & Hr & _).
    simplify_eq. by apply orb_prop.
  - intros Hr0 Hr1.
    assert (BiasGelu_match self graph node = NoMatch) as Hno.
    { unfold BiasGelu_match. rewrite H0, H1, Hr0, Hr1.
      by destruct (_ || _). }
    split; [done|]. by apply match_and_fuse_NoMatch.
  - intros gelu_index gelu_node slot Hget Hsig Hprov Hedges Hgelu Hep Hout
           Hrank.
    assert (Validated self graph node
              (if is_rank1 (Shape input0) then [input1; input0]
               else [input0; input1])
              gelu_index gelu_node) as V.
    { split; try done.
      - unfold GetOutputEdgesCount. by rewrite Hedges.
      - exists input0, input1. do 2 (split; [done|]). split; [|done].
        destruct Hrank as [-> | ->]; [done|apply orb_true_r].
      - unfold OutputNodes. by rewrite Hedges. }
    apply BiasGelu_match_Matched in V.
    destruct (fusion_result self graph modified _ _ _ _ _ Hget V)
      as (graph' & _ & Hrun & _ & Hcnt & _).
    exists graph'. done.
Qed.

(** C5: a node is fused only if it has exactly one consuming edge; with any
    other number of edges (none, several consumers, or one consumer reading
    it through several input slots) the rule declines and nothing changes. *)
Theorem single_consuming_edge_required self graph modified add_index node :
  GetOutputEdgesCount graph node <> 1 ->
  BiasGelu_match self graph node = NoMatch
  /\ (forall gelu_input gelu_index gelu_node,
         BiasGelu_match self graph node
         <> Matched gelu_input gelu_index gelu_node)
  /\ match_and_fuse self graph modified add_index node
     = (OK, graph, modified).
Proof.
  intros Hcnt.
  assert (BiasGelu_match self graph node = NoMatch) as Hno.
  { unfold BiasGelu_match. apply Nat.eqb_neq in Hcnt. rewrite Hcnt.
    by rewrite !orb_true_r. }
  split; [done|]. split; [by rewrite Hno|]. by apply match_and_fuse_NoMatch.
Qed.

(** Two different (consumer, slot) pairs make two edges. *)
Lemma two_edges_count graph node i c s j d t :
  In (i, c, s) (OutputEdges graph node) ->
  In (j, d, t) (OutputEdges graph node) ->
  (i, s) <> (j, t) ->
  GetOutputEdgesCount graph node <> 1.
Proof.
  unfold GetOutputEdgesCount.
  destruct (OutputEdges graph node) as [|e [|e' rest]]; simpl; try done.
  intros [->|[]] [Heq|[]] Hne. by simplify_eq.
Qed.

Lemma set_node_same graph i node :
  GetNode graph i = Some node -> set_node graph i (Some node) = graph.
Proof.
  intros Hget. apply GetNode_lookup in Hget. unfold set_node.
  rewrite list_insert_id by done. by destruct graph.
Qed.

Lemma with_subgraphs_same node : with_subgraphs node (Subgraphs node) = node.
Proof. by destruct node. Qed.

Lemma visit_leaf apply self graph modified graph_level node_index node :
  GetNode graph node_index = Some node ->
  Subgraphs node = [] ->
  visit apply self graph modified graph_level node_index
  = match_and_fuse self graph modified node_index node.
Proof.
  intros Hget Hleaf. unfold visit, Recurse. rewrite Hget, Hleaf. simpl.
  rewrite <- Hleaf, with_subgraphs_same. by rewrite set_node_same.
Qed.

(** C4: if an output of the candidate node is a declared output of the
    graph, the candidate is not fused and the graph (and the flag) stay as
    they were. *)
Theorem graph_output_blocks_fusion apply self graph modified graph_level
  add_index node out declared :
  GetNode graph add_index = Some node ->
  In out (OutputDefs node) ->
  In declared (GraphOutputs graph) ->
  Name declared = Name out ->
  (forall gelu_input gelu_index gelu_node,
      BiasGelu_match self graph node
      <> Matched gelu_input gelu_index gelu_node)
  /\ (exists status,
         match_and_fuse self graph modified add_index node
         = (status, graph, modified))
  /\ (Subgraphs node = [] ->
      exists status,
        visit apply self graph modified graph_level add_index
        = (status, graph, modified)).
Proof.
  intros Hget Hout Hdecl Hname.
  assert (forall gelu_input gelu_index gelu_node,
             BiasGelu_match self graph node
             <> Matched gelu_input gelu_index gelu_node) as Hnot.
  { intros gelu_input gelu_index gelu_node Hm.
    apply BiasGelu_match_Matched in Hm.
    pose proof (v_not_output _ _ _ _ _ _ Hm) as Hnil.
    unfold GetNodeOutputsInGraphOutputs in Hnil.
    by apply (proj1 (outputs_in_nil _ _ _) Hnil out declared). }
  assert (exists status,
             match_and_fuse self graph modified add_index node
             = (status, graph, modified)) as Hsame.
  { unfold match_and_fuse.
    destruct (BiasGelu_match self graph node) as [| |gi gidx gnode] eqn:Hm;
      eauto.
    by destruct (Hnot gi gidx gnode). }
  split; [done|]. split; [done|].
  intros Hleaf. by rewrite (visit_leaf _ _ _ _ _ _ _ Hget Hleaf).
Qed.

(** C6: fusion happens only when the single consumer of the [Add] node is a
    [Gelu] node of the required type, version and domain that runs on the
    provider of the [Add] node; the replacement node is assigned that same
    provider. *)
Theorem gelu_consumer_shares_provider self graph modified add_index node
  gelu_input gelu_index gelu_node :
  GetNode graph add_index = Some node ->
  BiasGelu_match self graph node = Matched gelu_input gelu_index gelu_node ->
  OutputNodes graph node = [(gelu_index, gelu_node)]
  /\ GetNode graph gelu_index = Some gelu_node
  /\ IsSupportedOptypeVersionAndDomain gelu_node "Gelu" [1%Z] kMSDomain = true
  /\ ExecutionProviderType gelu_node = ExecutionProviderType node
  /\ exists graph' replacement,
       match_and_fuse self graph modified add_index node = (OK, graph', true)
       /\ GetNode graph' (length (Nodes graph)) = Some replacement
       /\ ExecutionProviderType replacement = ExecutionProviderType gelu_node
       /\ ExecutionProviderType replacement = ExecutionProviderType node.
Proof.
  intros Hadd Hm.
  destruct (fusion_result self graph modified _ _ _ _ _ Hadd Hm)
    as (graph' & name & Hrun & Hnew & _).
  apply BiasGelu_match_Matched in Hm.
  destruct (Validated_edges _ _ _ _ _ _ Hm) as [slot He].
  split; [unfold OutputNodes; by rewrite He|].
  split; [by eapply Validated_gelu_live|].
  split; [apply (v_gelu _ _ _ _ _ _ Hm)|].
  split; [apply (v_same_provider _ _ _ _ _ _ Hm)|].
  exists graph', (fused_node name gelu_input gelu_node).
  do 3 (split; [done|]). simpl. apply (v_same_provider _ _ _ _ _ _ Hm).
Qed.

Lemma FinalizeNodeFusion_outputs graph chain replacement graph' :
  FinalizeNodeFusion graph chain replacement = Ok graph' ->
  ~ In replacement chain ->
  exists last_index last_node node',
    last chain = Some last_index
    /\ GetNode graph last_index = Some last_node
    /\ GetNode graph' replacement = Some node'
    /\ OutputDefs node' = OutputDefs last_node
    /\ GraphOutputs graph' = GraphOutputs graph.
Proof.
  intros Hfin Hnotin.
  destruct (FinalizeNodeFusion_frame _ _ _ _ Hfin) as [_ Hout].
  revert Hfin. unfold FinalizeNodeFusion. destruct (existsb _ _); [done|].
  destruct (last chain) as [last_index|]; simpl; [|done].
  destruct (GetNode graph last_index) as [last_node|] eqn:Hlast; [|done].
  destruct (GetNode graph replacement) as [r|] eqn:Hr; [|done].
  intros Heq. simplify_eq.
  exists last_index, last_node, (with_outputs r (OutputDefs last_node)).
  do 2 (split; [done|]). split; [|done].
  rewrite remove_chain_other by done.
  apply GetNode_set_node. by eapply GetNode_lt.
Qed.

(** C7: the replacement node takes over the outputs of the last node of the
    chain as they are (names, types and shapes), and the declared outputs of
    the graph are the same list before and after the fusion; for the
    bias-gelu rule the last node is the [Gelu] node. *)
Theorem fusion_preserves_outputs :
  (forall graph chain replacement graph',
      FinalizeNodeFusion graph chain replacement = Ok graph' ->
      ~ In replacement chain ->
      exists last_index last_node node',
        last chain = Some last_index
        /\ GetNode graph last_index = Some last_node
        /\ GetNode graph' replacement = Some node'
        /\ OutputDefs node' = OutputDefs last_node
        /\ GraphOutputs graph' = GraphOutputs graph)
  /\ (forall self graph modified add_index node gelu_input gelu_index
             gelu_node,
         GetNode graph add_index = Some node ->
         BiasGelu_match self graph node
         = Matched gelu_input gelu_index gelu_node ->
         exists graph' replacement,
           match_and_fuse self graph modified add_index node
           = (OK, graph', true)
           /\ GetNode graph gelu_index = Some gelu_node
           /\ GetNode graph' (length (Nodes graph)) = Some replacement
           /\ OutputDefs replacement = OutputDefs gelu_node
           /\ GraphOutputs graph' = GraphOutputs graph
           /\ map Name (GraphOutputs graph') = map Name (GraphOutputs graph)).
Proof.
  split; [apply FinalizeNodeFusion_outputs|].
  intros self graph modified add_index node gelu_input gelu_index gelu_node
         Hadd Hm.
  destruct (fusion_result self graph modified _ _ _ _ _ Hadd Hm)
    as (graph' & name & Hrun & Hnew & _ & _ & Hout & _).
  apply BiasGelu_match_Matched in Hm.
  exists graph', (fused_node name gelu_input gelu_node).
  split; [done|]. split; [by eapply Validated_gelu_live|].
  split; [done|]. split; [done|]. split; [done|]. by rewrite Hout.
Qed.

Lemma FinalizeNodeFusion_nonempty graph chain replacement graph' :
  FinalizeNodeFusion graph chain replacement = Ok graph' -> 1 <= length chain.
Proof.
  unfold FinalizeNodeFusion. destruct (existsb _ _); [done|].
  destruct chain; simpl; [done|lia].
Qed.

(** The fusion primitive: add the replacement, assign its provider, finalize.
    A chain of [k] distinct live nodes leaves [k - 1] nodes fewer. *)
Lemma fusion_primitive_count graph name op_type description inputs outputs
  domain provider chain graph1 replacement graph2 :
  AddNode graph name op_type description inputs outputs domain
  = Ok (graph1, replacement) ->
  FinalizeNodeFusion (SetExecutionProviderType graph1 replacement provider)
                     chain replacement = Ok graph2 ->
  NoDup chain ->
  (forall i, In i chain -> is_Some (GetNode graph i)) ->
  1 <= length chain
  /\ NumberOfNodes graph2 + length chain = NumberOfNodes graph + 1.
Proof.
  intros Hadd Hfin Hnd Hlive.
  split; [by eapply FinalizeNodeFusion_nonempty|].
  apply AddNode_spec in Hadd as (-> & Hnodes & _).
  destruct (SetExecutionProviderType_frame graph1 (length (Nodes graph))
              provider) as (Hcnt & _ & _ & Hsame).
  rewrite (FinalizeNodeFusion_count _ _ _ _ Hfin Hnd).
  - rewrite Hcnt. unfold NumberOfNodes. rewrite Hnodes, live_count_app.
    simpl. lia.
  - intros i Hin. apply Hsame. destruct (Hlive i Hin) as [n Hn].
    exists n. pose proof (GetNode_lt _ _ _ Hn).
    apply GetNode_lookup. rewrite Hnodes, lookup_app_l by done.
    by apply GetNode_lookup.
  - intros Hin. destruct (Hlive _ Hin) as [n Hn].
    apply GetNode_lt in Hn. lia.
Qed.

(** C8: a successful fusion of a chain of [k] nodes leaves the graph with
    [k - 1] nodes fewer; the bias-gelu rule fuses the chain [Add; Gelu], adds
    one node and removes two, so the count drops by exactly one. *)
Theorem node_count_law :
  (forall graph name op_type description inputs outputs domain provider chain
          graph1 replacement graph2,
      AddNode graph name op_type description inputs outputs domain
      = Ok (graph1, replacement) ->
      FinalizeNodeFusion
        (SetExecutionProviderType graph1 replacement provider)
        chain replacement = Ok graph2 ->
      NoDup chain ->
      (forall i, In i chain -> is_Some (GetNode graph i)) ->
      1 <= length chain
      /\ NumberOfNodes graph2 = NumberOfNodes graph - (length chain - 1))
  /\ (forall self graph modified add_index node gelu_input gelu_index
             gelu_node,
         GetNode graph add_index = Some node ->
         BiasGelu_match self graph node
         = Matched gelu_input gelu_index gelu_node ->
         exists graph',
           match_and_fuse self graph modified add_index node
           = (OK, graph', true)
           /\ NumberOfNodes graph' + 1 = NumberOfNodes graph
           /\ length (Nodes graph') = length (Nodes graph) + 1
           /\ GetNode graph' add_index = None
           /\ GetNode graph' gelu_index = None).
Proof.
  split.
  - intros graph name op_type description inputs outputs domain provider chain
           graph1 replacement graph2 Hnew Hfin Hnd Hlive.
    pose proof (fusion_primitive_count _ _ _ _ _ _ _ _ _ _ _ _
                  Hnew Hfin Hnd Hlive). lia.
  - intros self graph modified add_index node gelu_input gelu_index gelu_node
           Hadd Hm.
    destruct (fusion_result self graph modified _ _ _ _ _ Hadd Hm)
      as (graph' & name & Hrun & _ & Hcnt & Hlen & _ & Hgone & Hgone').
    exists graph'. repeat split; auto. lia.
Qed.

(** ** Weights *)

Lemma total_nodes_unfold graph :
  total_nodes graph = arena_weight (Nodes graph).
Proof.
  destruct graph as [arena ins outs gen]. simpl.
  induction arena as [|[node|] arena IH]; simpl; [done| |done].
  rewrite IH. unfold node_weight, subgraph_nodes. do 2 f_equal.
Qed.

Lemma arena_weight_app l1 l2 :
  arena_weight (l1 ++ l2) = arena_weight l1 + arena_weight l2.
Proof. induction l1 as [|[n|] l1 IH]; simpl; lia. Qed.

Lemma arena_weight_tombstone l i n :
  l !! i = Some (Some n) ->
  arena_weight (<[i := None]> l) + node_weight n = arena_weight l.
Proof.
  revert i; induction l as [|[m|] l IH]; intros [|i] Hl; simpl in *;
    try done.
  - simplify_eq. unfold node_weight. lia.
  - specialize (IH i Hl). unfold node_weight in *. lia.
  - by apply IH.
Qed.

Lemma arena_weight_overwrite l i n n' :
  l !! i = Some (Some n) ->
  arena_weight (<[i := Some n']> l) + node_weight n
  = arena_weight l + node_weight n'.
Proof.
  revert i; induction l as [|[m|] l IH]; intros [|i] Hl; simpl in *;
    try done.
  - simplify_eq. unfold node_weight. lia.
  - specialize (IH i Hl). unfold node_weight in *. lia.
  - by apply IH.
Qed.

Lemma fused_graph_lighter graph add_index node gelu_input gelu_index
  gelu_node :
  GetNode graph add_index = Some node ->
  GetNode graph gelu_index = Some gelu_node ->
  add_index <> gelu_index ->
  total_nodes (fused_graph graph add_index gelu_input gelu_index gelu_node)
  < total_nodes graph.
Proof.
  intros Hadd Hgelu Hne.
  pose proof (GetNode_lt _ _ _ Hadd) as Hlt_add.
  pose proof (GetNode_lt _ _ _ Hgelu) as Hlt_gelu.
  apply GetNode_lookup in Hadd, Hgelu.
  rewrite !total_nodes_unfold. unfold fused_graph. simpl.
  set (fresh := fused_node _ _ _).
  assert ((<[add_index:=None]> (Nodes graph ++ [Some fresh])) !! gelu_index
          = Some (Some gelu_node)) as Hgelu'.
  { rewrite list_lookup_insert_ne by done. by rewrite lookup_app_l. }
  assert ((Nodes graph ++ [Some fresh]) !! add_index = Some (Some node))
    as Hadd' by (by rewrite lookup_app_l).
  pose proof (arena_weight_tombstone _ _ _ Hgelu') as H1.
  pose proof (arena_weight_tombstone _ _ _ Hadd') as H2.
  rewrite arena_weight_app in H2. simpl in H2.
  unfold node_weight in *. simpl in H2. lia.
Qed.

(** ** The [modified] flag *)

Lemma match_and_fuse_flag self graph node_index node :
  GetNode graph node_index = Some node ->
  exists status graph' fused,
    (forall modified,
        match_and_fuse self graph modified node_index node
        = (status, graph', modified || fused))
    /\ (fused = true -> total_nodes graph' < total_nodes graph)
    /\ (fused = false -> graph' = graph).
Proof.
  intros Hget.
  destruct (BiasGelu_match self graph node) as [| |gi gidx gnode] eqn:Hm.
  - exists OK, graph, false. split; [|done].
    intros modified. unfold match_and_fuse. by rewrite Hm, orb_false_r.
  - exists (FAIL InvalidGraph), graph, false. split; [|done].
    intros modified. unfold match_and_fuse. by rewrite Hm, orb_false_r.
  - exists OK, (fused_graph graph node_index gi gidx gnode), true.
    split; [|split; [|done]].
    + intros modified. rewrite orb_true_r.
      by apply match_and_fuse_Matched.
    + intros _. apply BiasGelu_match_Matched in Hm.
      eapply fused_graph_lighter; eauto.
      * eapply Validated_gelu_live; eauto.
      * eapply Validated_distinct; eauto.
Qed.

Lemma recurse_subgraphs_flag apply :
  flag_discipline apply ->
  forall subgraphs subgraph_level,
  exists status subgraphs' fused,
    (forall modified,
        recurse_subgraphs apply subgraphs modified subgraph_level
        = (status, subgraphs', modified || fused))
    /\ (fused = true ->
        subgraph_nodes subgraphs' < subgraph_nodes subgraphs)
    /\ (fused = false -> subgraphs' = subgraphs).
Proof.
  intros Happly subgraphs level.
  induction subgraphs as [|g rest IH]; simpl.
  - exists OK, [], false. split; [|done]. intros m. by rewrite orb_false_r.
  - destruct (Happly g level) as (st1 & g1 & f1 & Hrun1 & Hlt1 & Heq1).
    destruct IH as (st2 & rest' & f2 & Hrun2 & Hlt2 & Heq2).
    assert (total_nodes g1 <= total_nodes g) as Hle1.
    { destruct f1; [specialize (Hlt1 eq_refl); lia|].
      by rewrite (Heq1 eq_refl). }
    assert (subgraph_nodes rest' <= subgraph_nodes rest) as Hle2.
    { destruct f2; [specialize (Hlt2 eq_refl); lia|].
      by rewrite (Heq2 eq_refl). }
    destruct st1 as [|code].
    + exists st2, (g1 :: rest'), (f1 || f2). split; [|split].
      * intros m. rewrite Hrun1, Hrun2. by rewrite orb_assoc.
      * intros Hf. simpl. apply orb_prop in Hf as [->| ->].
        -- specialize (Hlt1 eq_refl). lia.
        -- specialize (Hlt2 eq_refl). lia.
      * intros Hf. apply orb_false_elim in Hf as [-> ->].
        by rewrite Heq1, Heq2.
    + exists (FAIL code), (g1 :: rest), f1. split; [|split].
      * intros m. by rewrite Hrun1.
      * intros ->. simpl. specialize (Hlt1 eq_refl). lia.
      * intros ->. by rewrite Heq1.
Qed.

Lemma visit_flag apply self :
  flag_discipline apply ->
  forall graph graph_level node_index,
  exists status graph' fused,
    (forall modified,
        visit apply self graph modified graph_level node_index
        = (status, graph', modified || fused))
    /\ (fused = true -> total_nodes graph' < total_nodes graph)
    /\ (fused = false -> graph' = graph).
Proof.
  intros Happly graph level node_index. unfold visit.
  destruct (GetNode graph node_index) as [node|] eqn:Hget.
  2:{ exists OK, graph, false. split; [|done].
      intros m. by rewrite orb_false_r. }
  destruct (recurse_subgraphs_flag apply Happly (Subgraphs node) (S level))
    as (st1 & subs' & f1 & Hrun1 & Hlt1 & Heq1).
  set (node' := with_subgraphs node subs').
  set (graph1 := set_node graph node_index (Some node')).
  pose proof (GetNode_lt _ _ _ Hget) as Hlt.
  assert (GetNode graph1 node_index = Some node') as Hget1
    by (by apply GetNode_set_node).
  assert (total_nodes graph1 + node_weight node
          = total_nodes graph + node_weight node') as Hw.
  { rewrite !total_nodes_unfold. unfold graph1. simpl.
    apply arena_weight_overwrite. by apply GetNode_lookup. }
  assert (f1 = true -> total_nodes graph1 < total_nodes graph) as Hlt1'.
  { intros Hf. specialize (Hlt1 Hf).
    change (node_weight node') with (S (subgraph_nodes subs')) in Hw.
    change (node_weight node) with (S (subgraph_nodes (Subgraphs node)))
      in Hw.
    lia. }
  assert (f1 = false -> graph1 = graph) as Heq1'.
  { intros Hf. unfold graph1, node'. rewrite (Heq1 Hf), with_subgraphs_same.
    by apply set_node_same. }
  assert (total_nodes graph1 <= total_nodes graph) as Hle1.
  { destruct f1; [specialize (Hlt1' eq_refl); lia|].
    by rewrite (Heq1' eq_refl). }
  destruct st1 as [|code].
  - destruct (match_and_fuse_flag self graph1 node_index node' Hget1)
      as (st2 & graph2 & f2 & Hrun2 & Hlt2 & Heq2).
    exists st2, graph2, (f1 || f2). split; [|split].
    + intros m. unfold Recurse. rewrite Hrun1.
      fold node'. fold graph1. by rewrite Hrun2, orb_assoc.
    + intros Hf. apply orb_prop in Hf as [Hf|Hf].
      * assert (total_nodes graph2 <= total_nodes graph1).
        { destruct f2; [specialize (Hlt2 eq_refl); lia|].
          by rewrite (Heq2 eq_refl). }
        specialize (Hlt1' Hf). lia.
      * specialize (Hlt2 Hf). lia.
    + intros Hf. apply orb_false_elim in Hf as [Hf1 Hf2].
      by rewrite (Heq2 Hf2), (Heq1' Hf1).
  - exists (FAIL code), graph1, f1. split; [|done].
    intros m. unfold Recurse. by rewrite Hrun1.
Qed.

Lemma sweep_flag apply self :
  flag_discipline apply ->
  forall node_topology_list graph graph_level,
  exists status graph' fused,
    (forall modified,
        sweep apply self node_topology_list graph modified graph_level
        = (status, graph', modified || fused))
    /\ (fused = true -> total_nodes graph' < total_nodes graph)
    /\ (fused = false -> graph' = graph).
Proof.
  intros Happly order. induction order as [|i rest IH]; intros graph level.
  - exists OK, graph, false. split; [|done].
    intros m. simpl. by rewrite orb_false_r.
  - destruct (visit_flag apply self Happly graph level i)
      as (st1 & g1 & f1 & Hrun1 & Hlt1 & Heq1).
    destruct st1 as [|code].
    + destruct (IH g1 level) as (st2 & g2 & f2 & Hrun2 & Hlt2 & Heq2).
      exists st2, g2, (f1 || f2). split; [|split].
      * intros m. simpl. by rewrite Hrun1, Hrun2, orb_assoc.
      * intros Hf.
        assert (total_nodes g1 <= total_nodes graph).
        { destruct f1; [specialize (Hlt1 eq_refl); lia|].
          by rewrite (Heq1 eq_refl). }
        assert (total_nodes g2 <= total_nodes g1).
        { destruct f2; [specialize (Hlt2 eq_refl); lia|].
          by rewrite (Heq2 eq_refl). }
        apply orb_prop in Hf as [Hf|Hf].
        -- specialize (Hlt1 Hf). lia.
        -- specialize (Hlt2 Hf). lia.
      * intros Hf. apply orb_false_elim in Hf as [Hf1 Hf2].
        by rewrite (Heq2 Hf2), (Heq1 Hf1).
    + exists (FAIL code), g1, f1. split; [|done].
      intros m. simpl. by rewrite Hrun1.
Qed.

Lemma ApplyImpl_flag depth self : flag_discipline (ApplyImpl depth self).
Proof.
  induction depth as [|depth IH]; intros graph level.
  - exists (FAIL RecursionLimit), graph, false. split; [|done].
    intros m. simpl. by rewrite orb_false_r.
  - simpl. by apply sweep_flag.
Qed.

(** C10: the pass only ever raises the [modified] flag.  Its result is the
    flag on entry or-ed with whether a fusion took place, here or in a nested
    subgraph: a flag that is set on entry is set on return, and when no
    fusion takes place (the graph comes back as it was) the flag comes back
    as it was. *)
Theorem modified_flag_monotone depth self graph modified graph_level status
  graph' modified' :
  ApplyImpl depth self graph modified graph_level
  = (status, graph', modified') ->
  (modified = true -> modified' = true)
  /\ (modified' <> modified ->
      modified' = true /\ total_nodes graph' < total_nodes graph)
  /\ (graph' = graph -> modified' = modified)
  /\ exists fused,
       modified' = modified || fused
       /\ (fused = true <-> graph' <> graph)
       /\ forall entry,
            ApplyImpl depth self graph entry graph_level
            = (status, graph', entry || fused).
Proof.
  intros Hrun.
  destruct (ApplyImpl_flag depth self graph graph_level)
    as (st & g & fused & Hall & Hlt & Heq).
  rewrite Hall in Hrun. injection Hrun as Hst Hg Hm.
  subst status graph' modified'. rename g into graph'.
  assert (fused = true <-> graph' <> graph) as Hiff.
  { split.
    - intros Hf Hsame. specialize (Hlt Hf). rewrite Hsame in Hlt. lia.
    - intros Hne. destruct fused; [done|]. by destruct (Hne (Heq eq_refl)). }
  split; [by intros ->|]. split; [|split].
  - intros Hne. destruct fused.
    + split; [by rewrite orb_true_r|]. by apply Hlt.
    + by rewrite orb_false_r in Hne.
  - intros Hsame. destruct fused; [|by rewrite orb_false_r].
    by destruct (proj1 Hiff eq_refl).
  - exists fused. done.
Qed.

(** ** The sweep *)

Lemma topological_rounds_live rounds graph : forall emitted,
  (forall i, In i emitted -> is_Some (GetNode graph i)) ->
  forall i, In i (topological_rounds rounds graph emitted) ->
            is_Some (GetNode graph i).
Proof.
  induction rounds as [|rounds IH]; intros emitted Hem i; simpl; [auto|].
  destruct (find (ready graph emitted) (live_nodes graph)) as [[j n]|] eqn:Hf;
    [|auto].
  apply IH. intros k Hin. apply in_app_or in Hin as [Hin|[<-|[]]]; [auto|].
  apply find_some in Hf as [Hlive _]. apply In_live_nodes in Hlive.
  simpl. eauto.
Qed.

Lemma topological_order_live graph i :
  In i (GetNodesInTopologicalOrder graph) -> is_Some (GetNode graph i).
Proof. apply topological_rounds_live. intros j []. Qed.

Lemma sweep_app apply self l1 l2 graph modified graph_level :
  sweep apply self (l1 ++ l2) graph modified graph_level
  = match sweep apply self l1 graph modified graph_level with
    | (OK, graph', modified') =>
        sweep apply self l2 graph' modified' graph_level
    | failed => failed
    end.
Proof.
  revert graph modified. induction l1 as [|i l1 IH]; intros graph modified;
    simpl; [done|].
  destruct (visit apply self graph modified graph_level i)
    as [[[|code] g1] m1]; [apply IH|done].
Qed.

Lemma BiasGelu_fuse_frame graph add_index gelu_input gelu_index gelu_node
  graph' :
  BiasGelu_fuse graph add_index gelu_input gelu_index gelu_node = Ok graph' ->
  length (Nodes graph') = S (length (Nodes graph))
  /\ GraphOutputs graph' = GraphOutputs graph.
Proof.
  unfold BiasGelu_fuse.
  pose proof (GenerateNodeName_frame graph "BiasGelu") as (Hn & _ & Ho).
  destruct (GenerateNodeName graph "BiasGelu") as [name graph1].
  simpl in Hn, Ho.
  destruct (AddNode graph1 _ _ _ _ _ _) as [[graph2 fresh]|] eqn:Hadd;
    [|done].
  apply AddNode_spec in Hadd as (-> & Hnodes & Hout).
  intros Hfin. apply FinalizeNodeFusion_frame in Hfin as [-> ->].
  destruct (SetExecutionProviderType_frame graph2 (length (Nodes graph1))
              (ExecutionProviderType gelu_node)) as (_ & -> & -> & _).
  rewrite Hnodes, length_app, Hn, Hout, Ho. simpl. split; [lia|done].
Qed.

(** The arena never shrinks: removed nodes leave a tombstone. *)
Lemma match_and_fuse_length self graph modified node_index node status graph'
  modified' :
  match_and_fuse self graph modified node_index node
  = (status, graph', modified') ->
  length (Nodes graph) <= length (Nodes graph').
Proof.
  unfold match_and_fuse.
  destruct (BiasGelu_match self graph node) as [| |gi gidx gnode];
    try (intros Heq; by simplify_eq).
  destruct (BiasGelu_fuse graph node_index gi gidx gnode) as [g2|] eqn:Hf;
    intros Heq; simplify_eq; [|done].
  apply BiasGelu_fuse_frame in Hf as [-> _]. lia.
Qed.

Lemma visit_length apply self graph modified graph_level node_index status
  graph' modified' :
  visit apply self graph modified graph_level node_index
  = (status, graph', modified') ->
  length (Nodes graph) <= length (Nodes graph').
Proof.
  unfold visit.
  destruct (GetNode graph node_index) as [node|];
    [|intros Heq; by simplify_eq].
  destruct (Recurse apply node modified graph_level) as [[[|code] node'] m1].
  - intros Heq. apply match_and_fuse_length in Heq.
    simpl in Heq. by rewrite length_insert in Heq.
  - intros Heq. simplify_eq. simpl. by rewrite length_insert.
Qed.

Lemma sweep_length apply self node_topology_list :
  forall graph modified graph_level status graph' modified',
  sweep apply self node_topology_list graph modified graph_level
  = (status, graph', modified') ->
  length (Nodes graph) <= length (Nodes graph').
Proof.
  induction node_topology_list as [|i rest IH];
    intros graph modified level status graph' modified'; simpl.
  - intros Heq. by simplify_eq.
  - destruct (visit apply self graph modified level i)
      as [[[|code] g1] m1] eqn:Hv; intros Heq.
    + apply visit_length in Hv. apply IH in Heq. lia.
    + simplify_eq. by apply visit_length in Hv.
Qed.

(** A visit that ends with a longer arena has fused: the new slot holds the
    [BiasGelu] node, the visited node is gone and the flag is set. *)
Lemma visit_created apply self graph modified graph_level node_index graph'
  modified' :
  visit apply self graph modified graph_level node_index
  = (OK, graph', modified') ->
  length (Nodes graph') <> length (Nodes graph) ->
  exists replacement,
    GetNode graph' (length (Nodes graph)) = Some replacement
    /\ OpType replacement = "BiasGelu"
    /\ modified' = true
    /\ length (Nodes graph') = S (length (Nodes graph))
    /\ GetNode graph' node_index = None.
Proof.
  unfold visit.
  destruct (GetNode graph node_index) as [node|] eqn:Hget;
    [|intros Heq Hne; by simplify_eq].
  pose proof (GetNode_lt _ _ _ Hget) as Hlt.
  destruct (Recurse apply node modified graph_level) as [[[|code] node'] m1];
    [|done].
  set (graph1 := set_node graph node_index (Some node')).
  assert (GetNode graph1 node_index = Some node') as Hget1
    by (by apply GetNode_set_node).
  assert (length (Nodes graph1) = length (Nodes graph)) as Hlen1
    by (unfold graph1; simpl; by rewrite length_insert).
  destruct (BiasGelu_match self graph1 node') as [| |gi gidx gnode] eqn:Hm.
  - rewrite match_and_fuse_NoMatch by done. intros Heq Hne. simplify_eq.
  - unfold match_and_fuse. by rewrite Hm.
  - destruct (fusion_result self graph1 m1 _ _ _ _ _ Hget1 Hm)
      as (g2 & name & Hrun & Hnew & _ & Hlen & _ & Hgone & _).
    rewrite Hrun. intros Heq _. simplify_eq. rewrite Hlen1 in *.
    by exists (fused_node name gi gnode).
Qed.

Lemma fused_graph_other graph add_index gelu_input gelu_index gelu_node j :
  j <> add_index -> j <> gelu_index -> j < length (Nodes graph) ->
  GetNode (fused_graph graph add_index gelu_input gelu_index gelu_node) j
  = GetNode graph j.
Proof.
  intros Hadd Hgelu Hlt. unfold GetNode, fused_graph. simpl.
  rewrite !list_lookup_insert_ne by done. by rewrite lookup_app_l.
Qed.

(** A visit elsewhere leaves a node alone, unless it is the [Gelu] node the
    visited [Add] is fused with. *)
Lemma visit_preserves_node apply self graph modified graph_level node_index
  status graph' modified' kept node :
  kept <> node_index ->
  GetNode graph kept = Some node ->
  OpType node <> "Gelu" ->
  visit apply self graph modified graph_level node_index
  = (status, graph', modified') ->
  GetNode graph' kept = Some node.
Proof.
  intros Hne Hkept Hop. unfold visit.
  destruct (GetNode graph node_index) as [visited|] eqn:Hget;
    [|intros Heq; by simplify_eq].
  pose proof (GetNode_lt _ _ _ Hget) as Hlt.
  destruct (Recurse apply visited modified graph_level)
    as [[st1 visited'] m1].
  set (graph1 := set_node graph node_index (Some visited')).
  assert (GetNode graph1 kept = Some node) as Hkept1.
  { unfold graph1, GetNode, set_node. simpl.
    rewrite list_lookup_insert_ne by done. exact Hkept. }
  destruct st1 as [|code]; [|intros Heq; by simplify_eq].
  assert (GetNode graph1 node_index = Some visited') as Hget1
    by (by apply GetNode_set_node).
  destruct (BiasGelu_match self graph1 visited') as [| |gi gidx gnode] eqn:Hm.
  - rewrite match_and_fuse_NoMatch by done. intros Heq. by simplify_eq.
  - unfold match_and_fuse. rewrite Hm. intros Heq. by simplify_eq.
  - rewrite (match_and_fuse_Matched _ _ _ _ _ _ _ _ Hget1 Hm).
    intros Heq. simplify_eq. apply BiasGelu_match_Matched in Hm.
    rewrite fused_graph_other; [done|done| |by eapply GetNode_lt].
    intros ->. rewrite (Validated_gelu_live _ _ _ _ _ _ Hm) in Hkept1.
    destruct (Validated_op_types _ _ _ _ _ _ Hm) as [_ Hgelu].
    by simplify_eq.
Qed.

Lemma sweep_preserves_node apply self node_topology_list kept node :
  ~ In kept node_topology_list ->
  OpType node <> "Gelu" ->
  forall graph modified graph_level status graph' modified',
    GetNode graph kept = Some node ->
    sweep apply self node_topology_list graph modified graph_level
    = (status, graph', modified') ->
    GetNode graph' kept = Some node.
Proof.
  intros Hnotin Hop. induction node_topology_list as [|i rest IH];
    intros graph modified level status graph' modified' Hkept; simpl.
  - intros Heq. by simplify_eq.
  - destruct (visit apply self graph modified level i)
      as [[st1 g1] m1] eqn:Hv.
    assert (GetNode g1 kept = Some node) as Hkept1.
    { eapply visit_preserves_node; [|exact Hkept|exact Hop|exact Hv].
      intros ->. apply Hnotin. by left. }
    destruct st1 as [|code]; intros Heq; [|by simplify_eq].
    eapply IH; [|exact Hkept1|exact Heq].
    intros Hin. apply Hnotin. by right.
Qed.

(** C9: the sweep walks the topological order taken before any rewrite.  A
    node created by a fusion during the sweep sits at an index that is not in
    that order, so it is not examined in the same pass: the scan goes on with
    the next index of the order and ends with the new node as the fusion left
    it. *)
Theorem replacement_not_revisited depth self graph modified graph_level
  visited node_index rest graph1 modified1 graph2 modified2 :
  GetNodesInTopologicalOrder graph = visited ++ node_index :: rest ->
  sweep (ApplyImpl depth self) self visited graph modified graph_level
  = (OK, graph1, modified1) ->
  visit (ApplyImpl depth self) self graph1 modified1 graph_level node_index
  = (OK, graph2, modified2) ->
  length (Nodes graph2) <> length (Nodes graph1) ->
  exists replacement,
    GetNode graph2 (length (Nodes graph1)) = Some replacement
    /\ OpType replacement = "BiasGelu"
    /\ modified2 = true
    /\ ~ In (length (Nodes graph1)) (GetNodesInTopologicalOrder graph)
    /\ ApplyImpl (S depth) self graph modified graph_level
       = sweep (ApplyImpl depth self) self rest graph2 modified2 graph_level
    /\ forall status graph' modified',
         ApplyImpl (S depth) self graph modified graph_level
         = (status, graph', modified') ->
         GetNode graph' (length (Nodes graph1)) = Some replacement.
Proof.
  intros Horder Hsweep Hvisit Hgrew.
  destruct (visit_created _ _ _ _ _ _ _ _ Hvisit Hgrew)
    as (replacement & Hnew & Hop & Hflag & _).
  assert (~ In (length (Nodes graph1)) (GetNodesInTopologicalOrder graph))
    as Hout.
  { intros Hin. apply topological_order_live in Hin as [n Hn].
    apply GetNode_lt in Hn. apply sweep_length in Hsweep. lia. }
  assert (ApplyImpl (S depth) self graph modified graph_level
          = sweep (ApplyImpl depth self) self rest graph2 modified2
                  graph_level) as Hnext.
  { simpl. rewrite Horder, sweep_app, Hsweep. simpl. by rewrite Hvisit. }
  exists replacement. do 4 (split; [done|]). split; [done|].
  intros status graph' modified' Hrun. rewrite Hnext in Hrun.
  eapply sweep_preserves_node; [| |exact Hnew|exact Hrun].
  - intros Hin. apply Hout. rewrite Horder. apply in_or_app.
    right. by right.
  - rewrite Hop. discriminate.
Qed.

(** ** The recursion bound *)

Lemma nesting_depth_unfold graph :
  nesting_depth graph = S (arena_depth (Nodes graph)).
Proof.
  destruct graph as [arena ins outs gen]. simpl. f_equal.
Qed.

Lemma arena_depth_app l1 l2 :
  arena_depth (l1 ++ l2) = Nat.max (arena_depth l1) (arena_depth l2).
Proof. induction l1 as [|[n|] l1 IH]; simpl; lia. Qed.

Lemma arena_depth_tombstone l i :
  arena_depth (<[i := None]> l) <= arena_depth l.
Proof.
  revert i; induction l as [|[m|] l IH]; intros [|i]; simpl; try lia.
  - specialize (IH i). lia.
  - apply IH.
Qed.

Lemma arena_depth_overwrite l i n :
  arena_depth (<[i := Some n]> l)
  <= Nat.max (arena_depth l) (subgraph_depth (Subgraphs n)).
Proof.
  revert i; induction l as [|[m|] l IH]; intros [|i]; simpl; try lia.
  - specialize (IH i). lia.
  - specialize (IH i). lia.
Qed.

Lemma arena_depth_lookup l i n :
  l !! i = Some (Some n) -> subgraph_depth (Subgraphs n) <= arena_depth l.
Proof.
  revert i; induction l as [|[m|] l IH]; intros [|i] Hl; simpl in *;
    try done.
  - simplify_eq. lia.
  - specialize (IH i Hl). lia.
  - by apply (IH i).
Qed.

Lemma fused_graph_depth graph add_index gelu_input gelu_index gelu_node :
  nesting_depth (fused_graph graph add_index gelu_input gelu_index gelu_node)
  <= nesting_depth graph.
Proof.
  rewrite !nesting_depth_unfold. unfold fused_graph. simpl.
  etrans; [apply le_n_S, arena_depth_tombstone|].
  etrans; [apply le_n_S, arena_depth_tombstone|].
  rewrite arena_depth_app. simpl. lia.
Qed.

Lemma subgraph_depth_cons g rest :
  subgraph_depth (g :: rest)
  = Nat.max (nesting_depth g) (subgraph_depth rest).
Proof. done. Qed.

Lemma match_and_fuse_depth self graph modified node_index node status graph'
  modified' :
  GetNode graph node_index = Some node ->
  match_and_fuse self graph modified node_index node
  = (status, graph', modified') ->
  (status = OK \/ status = FAIL InvalidGraph)
  /\ nesting_depth graph' <= nesting_depth graph.
Proof.
  intros Hget.
  destruct (BiasGelu_match self graph node) as [| |gi gidx gnode] eqn:Hm.
  - rewrite match_and_fuse_NoMatch by done. intros Heq. simplify_eq. auto.
  - unfold match_and_fuse. rewrite Hm. intros Heq. simplify_eq. auto.
  - rewrite (match_and_fuse_Matched _ _ _ _ _ _ _ _ Hget Hm).
    intros Heq. simplify_eq. split; [auto|apply fused_graph_depth].
Qed.

Lemma recurse_subgraphs_depth limit apply :
  within_depth limit apply ->
  forall subgraphs modified subgraph_level status subgraphs' modified',
    subgraph_depth subgraphs <= limit ->
    recurse_subgraphs apply subgraphs modified subgraph_level
    = (status, subgraphs', modified') ->
    (status = OK \/ status = FAIL InvalidGraph)
    /\ subgraph_depth subgraphs' <= subgraph_depth subgraphs.
Proof.
  intros Happly subgraphs.
  induction subgraphs as [|g rest IH];
    intros modified level status subgraphs' modified' Hle; simpl.
  - intros Heq. simplify_eq. auto.
  - rewrite subgraph_depth_cons in Hle.
    destruct (apply g modified level) as [[st1 g1] m1] eqn:Hrun1.
    assert (nesting_depth g <= limit) as Hg by lia.
    destruct (Happly _ _ _ _ _ _ Hg Hrun1) as [Hst1 Hd1].
    destruct st1 as [|code].
    + destruct (recurse_subgraphs apply rest m1 level)
        as [[st2 rest'] m2] eqn:Hrun2.
      assert (subgraph_depth rest <= limit) as Hrest by lia.
      destruct (IH _ _ _ _ _ Hrest Hrun2) as [Hst2 Hd2].
      intros Heq. simplify_eq. rewrite !subgraph_depth_cons.
      split; [done|lia].
    + intros Heq. simplify_eq. rewrite !subgraph_depth_cons.
      split; [done|lia].
Qed.

Lemma visit_depth limit apply self :
  within_depth limit apply ->
  forall graph modified graph_level node_index status graph' modified',
    nesting_depth graph <= S limit ->
    visit apply self graph modified graph_level node_index
    = (status, graph', modified') ->
    (status = OK \/ status = FAIL InvalidGraph)
    /\ nesting_depth graph' <= nesting_depth graph.
Proof.
  intros Happly graph modified level node_index status graph' modified' Hle.
  unfold visit.
  destruct (GetNode graph node_index) as [node|] eqn:Hget;
    [|intros Heq; simplify_eq; auto].
  pose proof (GetNode_lt _ _ _ Hget) as Hlt.
  pose proof Hget as Hl. apply GetNode_lookup in Hl.
  apply arena_depth_lookup in Hl.
  rewrite nesting_depth_unfold in Hle.
  unfold Recurse.
  destruct (recurse_subgraphs apply (Subgraphs node) modified (S level))
    as [[st1 subs'] m1] eqn:Hrun1.
  assert (subgraph_depth (Subgraphs node) <= limit) as Hsubs by lia.
  destruct (recurse_subgraphs_depth limit apply Happly _ _ _ _ _ _
              Hsubs Hrun1) as [Hst1 Hd1].
  set (node' := with_subgraphs node subs').
  set (graph1 := set_node graph node_index (Some node')).
  assert (nesting_depth graph1 <= nesting_depth graph) as Hd.
  { rewrite !nesting_depth_unfold. unfold graph1. simpl.
    pose proof (arena_depth_overwrite (Nodes graph) node_index node').
    simpl in *. lia. }
  destruct st1 as [|code].
  - intros Heq.
    apply match_and_fuse_depth in Heq as [Hst Hd2];
      [|by apply GetNode_set_node].
    split; [done|]. fold graph1 in Hd2. lia.
  - intros Heq. simplify_eq. done.
Qed.

Lemma sweep_depth limit apply self :
  within_depth limit apply ->
  forall node_topology_list graph modified graph_level status graph'
         modified',
    nesting_depth graph <= S limit ->
    sweep apply self node_topology_list graph modified graph_level
    = (status, graph', modified') ->
    (status = OK \/ status = FAIL InvalidGraph)
    /\ nesting_depth graph' <= nesting_depth graph.
Proof.
  intros Happly order. induction order as [|i rest IH];
    intros graph modified level status graph' modified' Hle; simpl.
  - intros Heq. simplify_eq. auto.
  - destruct (visit apply self graph modified level i)
      as [[st1 g1] m1] eqn:Hv.
    destruct (visit_depth limit apply self Happly _ _ _ _ _ _ _ Hle Hv)
      as [Hst1 Hd1].
    destruct st1 as [|code]; intros Heq.
    + assert (nesting_depth g1 <= S limit) as Hg1 by lia.
      destruct (IH _ _ _ _ _ _ Hg1 Heq) as [Hst2 Hd2].
      split; [done|lia].
    + simplify_eq. done.
Qed.

(** Enough depth for the nesting of the graph is enough for the pass to run
    to its end: the recursion bound of the model is never the reason for a
    failure. *)
Lemma ApplyImpl_within_depth depth self : within_depth depth (ApplyImpl depth self).
Proof.
  induction depth as [|depth IH];
    intros graph modified level status graph' modified' Hle.
  - rewrite nesting_depth_unfold in Hle. lia.
  - simpl. by apply (sweep_depth depth).
Qed.

(** ** Resolved graphs *)

Lemma adds_are_binary_unfold graph :
  adds_are_binary graph = arena_binary (Nodes graph).
Proof. destruct graph as [arena ins outs gen]. simpl. f_equal. Qed.

Lemma arena_binary_lookup l :
  arena_binary l = true
  <-> forall i n, l !! i = Some (Some n) -> node_binary n = true.
Proof.
  induction l as [|[m|] l IH]; simpl.
  - split; [intros _ i n Hl; by rewrite lookup_nil in Hl|done].
  - rewrite andb_true_iff, IH. split.
    + intros [Hm Hall] [|i] n Hl; simpl in Hl; [by simplify_eq|eauto].
    + intros Hall. split; [by apply (Hall 0)|].
      intros i n Hl. by apply (Hall (S i)).
  - rewrite IH. split.
    + intros Hall [|i] n Hl; simpl in Hl; [done|eauto].
    + intros Hall i n Hl. by apply (Hall (S i)).
Qed.

Lemma arena_binary_insert l i slot :
  arena_binary l = true ->
  (forall n, slot = Some n -> node_binary n = true) ->
  arena_binary (<[i := slot]> l) = true.
Proof.
  rewrite !arena_binary_lookup. intros Hall Hslot j n Hl.
  destruct (decide (i = j)) as [->|Hne].
  - destruct (decide (j < length l)) as [Hlt|Hge].
    + rewrite list_lookup_insert_eq in Hl by done. simplify_eq. auto.
    + rewrite list_insert_ge in Hl by lia. eauto.
  - rewrite list_lookup_insert_ne in Hl by done. eauto.
Qed.

Lemma fused_graph_binary graph add_index gelu_input gelu_index gelu_node :
  adds_are_binary graph = true ->
  adds_are_binary
    (fused_graph graph add_index gelu_input gelu_index gelu_node) = true.
Proof.
  rewrite !adds_are_binary_unfold. intros Hall. unfold fused_graph. simpl.
  do 2 (apply arena_binary_insert; [|done]).
  apply arena_binary_lookup. intros i n Hl.
  apply lookup_app_Some in Hl as [Hl|[_ Hl]].
  - by apply (proj1 (arena_binary_lookup _) Hall i).
  - destruct (i - length (Nodes graph)) as [|k]; simpl in Hl; [|done].
    by simplify_eq.
Qed.

Lemma BiasGelu_match_Faulted self graph node :
  BiasGelu_match self graph node = Faulted -> binary_add node = false.
Proof.
  unfold BiasGelu_match.
  destruct (IsSupportedOptypeVersionAndDomain node "Add" _ _) eqn:Hsig;
    [|done].
  destruct (IsSupportedProvider node _); [|done].
  destruct (Nat.eqb _ 1); [|done]. simpl.
  unfold IsSupportedOptypeVersionAndDomain in Hsig.
  apply andb_prop in Hsig as [Hsig _]. apply andb_prop in Hsig as [Hop _].
  unfold binary_add. rewrite Hop.
  destruct (InputDefs node) as [|a [|b rest]]; simpl; try done.
  intros Hm. exfalso. revert Hm.
  destruct (is_rank1 (Shape a)), (is_rank1 (Shape b));
    destruct (OutputNodes graph node) as [|[i c] tl]; try done;
    destruct (_ || _); try done;
    by destruct (GetNodeOutputsInGraphOutputs graph node).
Qed.

Lemma match_and_fuse_binary self graph modified node_index node status graph'
  modified' :
  GetNode graph node_index = Some node ->
  adds_are_binary graph = true ->
  match_and_fuse self graph modified node_index node
  = (status, graph', modified') ->
  status <> FAIL InvalidGraph /\ adds_are_binary graph' = true.
Proof.
  intros Hget Hall.
  destruct (BiasGelu_match self graph node) as [| |gi gidx gnode] eqn:Hm.
  - rewrite match_and_fuse_NoMatch by done. intros Heq. by simplify_eq.
  - apply BiasGelu_match_Faulted in Hm.
    rewrite adds_are_binary_unfold in Hall.
    apply GetNode_lookup in Hget.
    pose proof (proj1 (arena_binary_lookup _) Hall _ _ Hget) as Hn.
    unfold node_binary in Hn. rewrite Hm in Hn. done.
  - rewrite (match_and_fuse_Matched _ _ _ _ _ _ _ _ Hget Hm).
    intros Heq. simplify_eq. split; [done|by apply fused_graph_binary].
Qed.

Lemma recurse_subgraphs_binary apply :
  keeps_adds_binary apply ->
  forall subgraphs modified subgraph_level status subgraphs' modified',
    subgraphs_binary subgraphs = true ->
    recurse_subgraphs apply subgraphs modified subgraph_level
    = (status, subgraphs', modified') ->
    status <> FAIL InvalidGraph /\ subgraphs_binary subgraphs' = true.
Proof.
  intros Happly subgraphs.
  induction subgraphs as [|g rest IH];
    intros modified level status subgraphs' modified' Hall; simpl.
  - intros Heq. by simplify_eq.
  - simpl in Hall. apply andb_prop in Hall as [Hg Hrest].
    destruct (apply g modified level) as [[st1 g1] m1] eqn:Hrun1.
    destruct (Happly _ _ _ _ _ _ Hg Hrun1) as [Hst1 Hg1].
    destruct st1 as [|code].
    + destruct (recurse_subgraphs apply rest m1 level)
        as [[st2 rest'] m2] eqn:Hrun2.
      destruct (IH _ _ _ _ _ Hrest Hrun2) as [Hst2 Hrest'].
      intros Heq. simplify_eq. simpl. by rewrite Hg1, Hrest'.
    + intros Heq. simplify_eq. simpl. by rewrite Hg1, Hrest.
Qed.

Lemma visit_binary apply self :
  keeps_adds_binary apply ->
  forall graph modified graph_level node_index status graph' modified',
    adds_are_binary graph = true ->
    visit apply self graph modified graph_level node_index
    = (status, graph', modified') ->
    status <> FAIL InvalidGraph /\ adds_are_binary graph' = true.
Proof.
  intros Happly graph modified level node_index status graph' modified' Hall.
  unfold visit.
  destruct (GetNode graph node_index) as [node|] eqn:Hget;
    [|intros Heq; by simplify_eq].
  pose proof (GetNode_lt _ _ _ Hget) as Hlt.
  pose proof Hall as Harena. rewrite adds_are_binary_unfold in Harena.
  pose proof Hget as Hl. apply GetNode_lookup in Hl.
  pose proof (proj1 (arena_binary_lookup _) Harena _ _ Hl) as Hn.
  unfold node_binary in Hn. apply andb_prop in Hn as [Hadd Hsubs].
  unfold Recurse.
  destruct (recurse_subgraphs apply (Subgraphs node) modified (S level))
    as [[st1 subs'] m1] eqn:Hrun1.
  destruct (recurse_subgraphs_binary apply Happly _ _ _ _ _ _ Hsubs Hrun1)
    as [Hst1 Hsubs'].
  set (node' := with_subgraphs node subs').
  set (graph1 := set_node graph node_index (Some node')).
  assert (adds_are_binary graph1 = true) as Hall1.
  { rewrite adds_are_binary_unfold. unfold graph1. simpl.
    apply arena_binary_insert; [done|]. intros n Heq.
    injection Heq as <-.
    change (node_binary node')
      with (binary_add node && subgraphs_binary subs').
    by rewrite Hadd, Hsubs'. }
  destruct st1 as [|code].
  - intros Heq. eapply match_and_fuse_binary; [|done|exact Heq].
    by apply GetNode_set_node.
  - intros Heq. by simplify_eq.
Qed.

Lemma sweep_binary apply self :
  keeps_adds_binary apply ->
  forall node_topology_list graph modified graph_level status graph'
         modified',
    adds_are_binary graph = true ->
    sweep apply self node_topology_list graph modified graph_level
    = (status, graph', modified') ->
    status <> FAIL InvalidGraph /\ adds_are_binary graph' = true.
Proof.
  intros Happly order. induction order as [|i rest IH];
    intros graph modified level status graph' modified' Hall; simpl.
  - intros Heq. by simplify_eq.
  - destruct (visit apply self graph modified level i)
      as [[st1 g1] m1] eqn:Hv.
    destruct (visit_binary apply self Happly _ _ _ _ _ _ _ Hall Hv)
      as [Hst1 Hall1].
    destruct st1 as [|code]; intros Heq; [by eapply IH|by simplify_eq].
Qed.

Lemma ApplyImpl_keeps_adds_binary depth self :
  keeps_adds_binary (ApplyImpl depth self).
Proof.
  induction depth as [|depth IH];
    intros graph modified level status graph' modified' Hall; simpl.
  - intros Heq. by simplify_eq.
  - by apply sweep_binary.
Qed.

(** On a resolved graph, with room for its nesting, the pass runs to its end
    and returns [OK]. *)
Lemma ApplyImpl_returns_OK depth self graph modified graph_level :
  nesting_depth graph <= depth ->
  adds_are_binary graph = true ->
  exists graph' modified',
    ApplyImpl depth self graph modified graph_level
    = (OK, graph', modified').
Proof.
  intros Hdepth Hall.
  destruct (ApplyImpl depth self graph modified graph_level)
    as [[status graph'] modified'] eqn:Hrun.
  destruct (ApplyImpl_within_depth depth self _ _ _ _ _ _ Hdepth Hrun)
    as [[->| ->] _]; [eauto|].
  by destruct (ApplyImpl_keeps_adds_binary depth self _ _ _ _ _ _ Hall Hrun).
Qed.

(** ** Whole passes

    A relation between graphs that holds across a write-back of rewritten
    subgraphs and across one fusion, and composes, holds across a pass. *)

Section Lifting.

Variable self : GraphTransformer.
Variable R : Graph -> Graph -> Prop.

Hypothesis R_refl : forall graph, R graph graph.
Hypothesis R_trans : forall a b c, R a b -> R b c -> R a c.
Hypothesis R_writeback :
  forall graph i node subgraphs,
    GetNode graph i = Some node ->
    R graph (set_node graph i (Some (with_subgraphs node subgraphs))).
Hypothesis R_fuse :
  forall graph i node gelu_input gelu_index gelu_node,
    GetNode graph i = Some node ->
    Validated self graph node gelu_input gelu_index gelu_node ->
    R graph (fused_graph graph i gelu_input gelu_index gelu_node).

Lemma visit_lifts apply graph modified graph_level node_index status graph'
  modified' :
  visit apply self graph modified graph_level node_index
  = (status, graph', modified') ->
  R graph graph'.
Proof.
  unfold visit.
  destruct (GetNode graph node_index) as [node|] eqn:Hget;
    [|intros Heq; by simplify_eq].
  pose proof (GetNode_lt _ _ _ Hget) as Hlt.
  unfold Recurse.
  destruct (recurse_subgraphs apply (Subgraphs node) modified
              (S graph_level)) as [[st1 subs'] m1].
  pose proof (R_writeback graph node_index node subs' Hget) as Hwb.
  set (node' := with_subgraphs node subs') in *.
  set (graph1 := set_node graph node_index (Some node')) in *.
  destruct st1 as [|code]; [|intros Heq; by simplify_eq].
  assert (GetNode graph1 node_index = Some node') as Hget1
    by (by apply GetNode_set_node).
  destruct (BiasGelu_match self graph1 node') as [| |gi gidx gnode] eqn:Hm.
  - rewrite match_and_fuse_NoMatch by done. intros Heq. by simplify_eq.
  - unfold match_and_fuse. rewrite Hm. intros Heq. by simplify_eq.
  - rewrite (match_and_fuse_Matched _ _ _ _ _ _ _ _ Hget1 Hm).
    intros Heq. simplify_eq. apply BiasGelu_match_Matched in Hm.
    eapply R_trans; [exact Hwb|]. by eapply R_fuse.
Qed.

Lemma sweep_lifts apply node_topology_list :
  forall graph modified graph_level status graph' modified',
    sweep apply self node_topology_list graph modified graph_level
    = (status, graph', modified') ->
    R graph graph'.
Proof.
  induction node_topology_list as [|i rest IH];
    intros graph modified level status graph' modified'; simpl.
  - intros Heq. by simplify_eq.
  - destruct (visit apply self graph modified level i)
      as [[st1 g1] m1] eqn:Hv.
    apply visit_lifts in Hv.
    destruct st1 as [|code]; intros Heq; [|by simplify_eq].
    eapply R_trans; [exact Hv|]. by eapply IH.
Qed.

Lemma ApplyImpl_lifts depth graph modified graph_level status graph'
  modified' :
  ApplyImpl depth self graph modified graph_level
  = (status, graph', modified') ->
  R graph graph'.
Proof.
  destruct depth as [|depth]; simpl.
  - intros Heq. by simplify_eq.
  - apply sweep_lifts.
Qed.

End Lifting.

(** *** Slots and nodes *)

Lemma census_kept_writeback graph i node subgraphs :
  GetNode graph i = Some node ->
  census_kept graph (set_node graph i (Some (with_subgraphs node subgraphs))).
Proof.
  intros Hget. apply GetNode_lookup in Hget.
  unfold census_kept, NumberOfNodes. simpl.
  by rewrite length_insert, (live_count_overwrite _ _ _ _ Hget).
Qed.

Lemma census_kept_fuse self graph i node gelu_input gelu_index gelu_node :
  GetNode graph i = Some node ->
  Validated self graph node gelu_input gelu_index gelu_node ->
  census_kept graph (fused_graph graph i gelu_input gelu_index gelu_node).
Proof.
  intros Hget V.
  destruct (fused_graph_facts graph i node gelu_input gelu_index gelu_node
              Hget (Validated_gelu_live _ _ _ _ _ _ V)
              (Validated_distinct _ _ _ _ _ _ _ V Hget))
    as (_ & Hcnt & Hlen & _).
  unfold census_kept. lia.
Qed.

Lemma census_kept_pass depth self graph modified graph_level status graph'
  modified' :
  ApplyImpl depth self graph modified graph_level
  = (status, graph', modified') ->
  census_kept graph graph'.
Proof.
  apply (ApplyImpl_lifts self census_kept).
  - done.
  - unfold census_kept. intros a b c Hab Hbc. lia.
  - apply census_kept_writeback.
  - apply census_kept_fuse.
Qed.

(** *** Declared inputs and outputs *)

Lemma declared_kept_pass depth self graph modified graph_level status graph'
  modified' :
  ApplyImpl depth self graph modified graph_level
  = (status, graph', modified') ->
  declared_kept graph graph'.
Proof.
  apply (ApplyImpl_lifts self declared_kept).
  - done.
  - intros a b c [Hi Ho] [Hi' Ho']. split; congruence.
  - done.
  - done.
Qed.

(** *** The arena *)

Lemma interface_of_with_subgraphs node subgraphs :
  interface_of (with_subgraphs node subgraphs) = interface_of node.
Proof. done. Qed.

Lemma interface_fields node node' :
  interface_of node' = interface_of node ->
  OpType node' = OpType node /\ Domain node' = Domain node
  /\ InputDefs node' = InputDefs node /\ OutputDefs node' = OutputDefs node
  /\ ExecutionProviderType node' = ExecutionProviderType node
  /\ NodeName node' = NodeName node /\ SinceVersion node' = SinceVersion node.
Proof.
  destruct node, node'. unfold interface_of, with_subgraphs. simpl.
  intros Heq. injection Heq. intros. subst. done.
Qed.

Lemma compatible_bias_gelu_interface self node node' :
  interface_of node' = interface_of node ->
  compatible_bias_gelu self node -> compatible_bias_gelu self node'.
Proof.
  intros Heq (Hop & Hdom & Hprov & main & bias & Hin & Hrank).
  apply interface_fields in Heq as (Hop' & Hdom' & Hin' & _ & Hep & _).
  unfold compatible_bias_gelu, IsSupportedProvider in *.
  rewrite Hop', Hdom', Hin', Hep. eauto 10.
Qed.

Lemma GetNode_beyond graph i node :
  length (Nodes graph) <= i -> GetNode graph i = Some node -> False.
Proof. intros Hle Hget. apply GetNode_lt in Hget. lia. Qed.

Lemma GetNode_set_node_ne graph i j slot :
  i <> j -> GetNode (set_node graph i slot) j = GetNode graph j.
Proof.
  intros Hne. unfold GetNode, set_node. simpl.
  by rewrite list_lookup_insert_ne.
Qed.

(** The live nodes of a fused graph: the survivors and the new node. *)
Lemma fused_graph_live graph add_index node gelu_input gelu_index gelu_node j
  kept :
  GetNode graph add_index = Some node ->
  GetNode graph gelu_index = Some gelu_node ->
  add_index <> gelu_index ->
  GetNode (fused_graph graph add_index gelu_input gelu_index gelu_node) j
  = Some kept ->
  (j = length (Nodes graph)
   /\ kept = fused_node (fst (GenerateNodeName graph "BiasGelu"))
                        gelu_input gelu_node)
  \/ (j <> add_index /\ j <> gelu_index /\ j < length (Nodes graph)
      /\ GetNode graph j = Some kept).
Proof.
  intros Hadd Hgelu Hne Hj.
  destruct (fused_graph_facts graph add_index node gelu_input gelu_index
              gelu_node Hadd Hgelu Hne)
    as (Hnew & _ & Hlen & _ & Hgone & Hgone').
  destruct (decide (j = add_index)) as [->|Hja]; [congruence|].
  destruct (decide (j = gelu_index)) as [->|Hjg]; [congruence|].
  destruct (decide (j < length (Nodes graph))) as [Hlt|Hge].
  - right. rewrite fused_graph_other in Hj by done. done.
  - left. pose proof (GetNode_lt _ _ _ Hj) as Hlt. rewrite Hlen in Hlt.
    assert (j = length (Nodes graph)) as -> by lia.
    split; [done|]. congruence.
Qed.

Lemma fused_node_compatible self graph node gelu_input gelu_index gelu_node
  name :
  Validated self graph node gelu_input gelu_index gelu_node ->
  compatible_bias_gelu self (fused_node name gelu_input gelu_node).
Proof.
  intros V. unfold compatible_bias_gelu. simpl.
  do 2 (split; [done|]). split.
  - pose proof (v_provider _ _ _ _ _ _ V) as Hp.
    unfold IsSupportedProvider in *. simpl.
    by rewrite (v_same_provider _ _ _ _ _ _ V).
  - destruct (v_operands _ _ _ _ _ _ V) as (in0 & in1 & _ & _ & Hr & ->).
    destruct (is_rank1 (Shape in0)) eqn:Hr0; simpl in Hr; eauto.
Qed.

Lemma arena_frame_refl self graph : arena_frame self graph graph.
Proof.
  split; [done|]. split.
  - intros i node' _ Hget. eauto.
  - intros i node' Hle Hget. by destruct (GetNode_beyond _ _ _ Hle Hget).
Qed.

Lemma arena_frame_trans self a b c :
  arena_frame self a b -> arena_frame self b c -> arena_frame self a c.
Proof.
  intros (Hlen & Hold & Hnew) (Hlen' & Hold' & Hnew').
  split; [lia|]. split.
  - intros i nc Hlt Hget.
    destruct (Hold' i nc ltac:(lia) Hget) as (nb & Hb & Heq).
    destruct (Hold i nb Hlt Hb) as (na & Ha & Heq').
    exists na. split; [done|congruence].
  - intros i nc Hle Hget.
    destruct (decide (i < length (Nodes b))) as [Hlt|Hge].
    + destruct (Hold' i nc Hlt Hget) as (nb & Hb & Heq).
      eapply compatible_bias_gelu_interface; [exact Heq|].
      by eapply Hnew.
    + apply (Hnew' i nc); [lia|done].
Qed.

Lemma arena_frame_writeback self graph i node subgraphs :
  GetNode graph i = Some node ->
  arena_frame self graph
              (set_node graph i (Some (with_subgraphs node subgraphs))).
Proof.
  intros Hget. pose proof (GetNode_lt _ _ _ Hget) as Hlt.
  split; [simpl; by rewrite length_insert|]. split.
  - intros j node' _ Hj. destruct (decide (i = j)) as [->|Hne].
    + rewrite GetNode_set_node in Hj by done. simplify_eq.
      exists node. split; [done|apply interface_of_with_subgraphs].
    + rewrite GetNode_set_node_ne in Hj by done. eauto.
  - intros j node' Hle Hj. rewrite GetNode_set_node_ne in Hj by lia.
    by destruct (GetNode_beyond _ _ _ Hle Hj).
Qed.

Lemma arena_frame_fuse self graph i node gelu_input gelu_index gelu_node :
  GetNode graph i = Some node ->
  Validated self graph node gelu_input gelu_index gelu_node ->
  arena_frame self graph
              (fused_graph graph i gelu_input gelu_index gelu_node).
Proof.
  intros Hget V.
  pose proof (Validated_gelu_live _ _ _ _ _ _ V) as Hgelu.
  pose proof (Validated_distinct _ _ _ _ _ _ _ V Hget) as Hne.
  destruct (fused_graph_facts graph i node gelu_input gelu_index gelu_node
              Hget Hgelu Hne) as (_ & _ & Hlen & _).
  split; [lia|]. split.
  - intros j kept Hlt Hj.
    destruct (fused_graph_live _ _ _ _ _ _ _ _ Hget Hgelu Hne Hj)
      as [[-> _]|(_ & _ & _ & Hold)]; [lia|eauto].
  - intros j kept Hle Hj.
    destruct (fused_graph_live _ _ _ _ _ _ _ _ Hget Hgelu Hne Hj)
      as [[_ ->]|(_ & _ & Hlt & _)]; [|lia].
    by eapply fused_node_compatible.
Qed.

Lemma arena_frame_pass depth self graph modified graph_level status graph'
  modified' :
  ApplyImpl depth self graph modified graph_level
  = (status, graph', modified') ->
  arena_frame self graph graph'.
Proof.
  apply (ApplyImpl_lifts self (arena_frame self)).
  - apply arena_frame_refl.
  - apply arena_frame_trans.
  - apply arena_frame_writeback.
  - apply arena_frame_fuse.
Qed.

(** *** Bystanders *)

Lemma bystanders_kept_pass depth self graph modified graph_level status
  graph' modified' :
  ApplyImpl depth self graph modified graph_level
  = (status, graph', modified') ->
  bystanders_kept graph graph'.
Proof.
  apply (ApplyImpl_lifts self bystanders_kept).
  - intros g i node Hget _ _. eauto.
  - intros a b c Hab Hbc i na Ha Hadd Hgelu.
    destruct (Hab i na Ha Hadd Hgelu) as (nb & Hb & Heq).
    pose proof (interface_fields _ _ Heq) as (Hop & _).
    destruct (Hbc i nb Hb) as (nc & Hc & Heq'); [congruence|congruence|].
    exists nc. split; [done|congruence].
  - intros g i node subs Hget j kept Hj _ _.
    pose proof (GetNode_lt _ _ _ Hget) as Hlt.
    destruct (decide (i = j)) as [->|Hne].
    + rewrite GetNode_set_node by done. simplify_eq.
      eexists. split; [done|apply interface_of_with_subgraphs].
    + rewrite GetNode_set_node_ne by done. eauto.
  - intros g i node gi gidx gnode Hget V j kept Hj Hadd Hgelu.
    destruct (Validated_op_types _ _ _ _ _ _ V) as [Hop_add Hop_gelu].
    pose proof (Validated_gelu_live _ _ _ _ _ _ V) as Hlive.
    exists kept. split; [|done].
    rewrite fused_graph_other; [done| | |by eapply GetNode_lt].
    + intros ->. by simplify_eq.
    + intros ->. by simplify_eq.
Qed.

(** *** Producers and consumers *)

Lemma value_produced_iff graph value :
  value_produced graph value = true
  <-> exists p producer,
        GetNode graph p = Some producer /\ produces producer value = true.
Proof.
  unfold value_produced. rewrite existsb_exists. split.
  - intros [[p producer] [Hin Hp]]. apply In_live_nodes in Hin. eauto.
  - intros (p & producer & Hget & Hp). exists (p, producer).
    split; [by apply In_live_nodes|done].
Qed.

Lemma captured_unfold graph :
  captured graph
  = List.filter (fun arg => negb (defined_locally graph (Name arg)))
                (arena_reads (Nodes graph)).
Proof.
  destruct graph as [arena ins outs gen]. simpl. f_equal.
Qed.

Lemma In_arena_reads arena arg :
  In arg (arena_reads arena)
  <-> exists i node, arena !! i = Some (Some node) /\ In arg (reads node).
Proof.
  induction arena as [|[m|] arena IH]; simpl.
  - split; [done|]. intros (i & node & Hl & _). by rewrite lookup_nil in Hl.
  - rewrite in_app_iff, IH. split.
    + intros [Hin|(i & node & Hl & Hin)].
      * exists 0, m. done.
      * exists (S i), node. done.
    + intros ([|i] & node & Hl & Hin); simpl in Hl.
      * left. by simplify_eq.
      * right. eauto.
  - rewrite IH. split.
    + intros (i & node & Hl & Hin). exists (S i), node. done.
    + intros ([|i] & node & Hl & Hin); simpl in Hl; [done|eauto].
Qed.

(** What a graph captures: the values it reads and does not resolve. *)
Lemma In_captured graph arg :
  In arg (captured graph)
  <-> (exists i node, GetNode graph i = Some node /\ In arg (reads node))
      /\ value_produced graph (Name arg) = false
      /\ existsb (fun g => String.eqb (Name g) (Name arg))
                 (GraphInputs graph) = false.
Proof.
  rewrite captured_unfold, filter_In, In_arena_reads.
  unfold defined_locally, value_produced.
  rewrite negb_true_iff, orb_false_iff.
  split.
  - intros [(i & node & Hl & Hin) Hdef]. split; [|done].
    exists i, node. split; [by apply GetNode_lookup|done].
  - intros [(i & node & Hget & Hin) Hdef]. split; [|done].
    exists i, node. split; [by apply GetNode_lookup|done].
Qed.

Lemma feeds_kept_refl graph : feeds_kept graph graph.
Proof. split; [done|]. split; auto. Qed.

Lemma feeds_kept_trans a b c :
  feeds_kept a b -> feeds_kept b c -> feeds_kept a c.
Proof.
  intros (Hi & Hc & Hp) (Hi' & Hc' & Hp'). split; [congruence|].
  split; [auto|].
  intros value Hcons Hprod. apply Hp'; [done|]. apply Hp; auto.
Qed.

(** A graph whose feeds are kept captures nothing new. *)
Lemma captured_kept graph graph' arg :
  feeds_kept graph graph' ->
  In arg (captured graph') ->
  exists arg0, In arg0 (captured graph) /\ Name arg0 = Name arg.
Proof.
  intros (Hi & Hc & Hp) Hin.
  apply In_captured in Hin as ((i & node & Hget & Hread) & Hnone & Hext).
  assert (consumed graph' (Name arg)) as Hcons by (exists i, node, arg; done).
  destruct (Hc _ Hcons) as (i0 & node0 & arg0 & Hget0 & Hread0 & Hname).
  exists arg0. split; [|done]. apply In_captured. rewrite Hname.
  split; [eauto|]. split.
  - destruct (value_produced graph (Name arg)) eqn:Hprod; [|done].
    rewrite (Hp _ Hcons Hprod) in Hnone. done.
  - by rewrite <- Hi.
Qed.

Lemma implicit_kept subgraphs subgraphs' arg :
  Forall2 feeds_kept subgraphs subgraphs' ->
  In arg (flat_map captured subgraphs') ->
  exists arg0, In arg0 (flat_map captured subgraphs) /\ Name arg0 = Name arg.
Proof.
  induction 1 as [|g g' rest rest' Hg Hrest IH]; simpl; [done|].
  rewrite in_app_iff. intros [Hin|Hin].
  - destruct (captured_kept _ _ _ Hg Hin) as (arg0 & Hin0 & Hname).
    exists arg0. rewrite in_app_iff. auto.
  - destruct (IH Hin) as (arg0 & Hin0 & Hname).
    exists arg0. rewrite in_app_iff. auto.
Qed.

Lemma recurse_subgraphs_feeds apply subgraphs :
  keeps_feeds apply ->
  forall modified subgraph_level status subgraphs' modified',
    recurse_subgraphs apply subgraphs modified subgraph_level
    = (status, subgraphs', modified') ->
    Forall2 feeds_kept subgraphs subgraphs'.
Proof.
  intros Happly. induction subgraphs as [|g rest IH];
    intros modified level status subgraphs' modified'; simpl.
  - intros Heq. simplify_eq. constructor.
  - destruct (apply g modified level) as [[st1 g1] m1] eqn:Hrun1.
    pose proof (Happly _ _ _ _ _ _ Hrun1) as Hg.
    destruct st1 as [|code].
    + destruct (recurse_subgraphs apply rest m1 level)
        as [[st2 rest'] m2] eqn:Hrun2.
      intros Heq. simplify_eq. constructor; [done|]. by eapply IH.
    + intros Heq. simplify_eq. constructor; [done|].
      clear. induction rest; constructor; auto using feeds_kept_refl.
Qed.

Lemma feeds_kept_writeback graph i node subgraphs :
  GetNode graph i = Some node ->
  Forall2 feeds_kept (Subgraphs node) subgraphs ->
  feeds_kept graph (set_node graph i (Some (with_subgraphs node subgraphs))).
Proof.
  intros Hget Hsubs. pose proof (GetNode_lt _ _ _ Hget) as Hlt.
  split; [done|]. split.
  - intros value (j & c & arg & Hj & Hin & Hname).
    destruct (decide (i = j)) as [->|Hne].
    + rewrite GetNode_set_node in Hj by done. simplify_eq.
      unfold reads, ImplicitInputDefs in Hin. simpl in Hin.
      apply in_app_or in Hin as [Hin|Hin].
      * exists j, node, arg. split; [done|]. split; [|done].
        apply in_or_app. by left.
      * destruct (implicit_kept _ _ _ Hsubs Hin) as (arg0 & Hin0 & Hname).
        exists j, node, arg0. split; [done|]. split; [|done].
        apply in_or_app. by right.
    + rewrite GetNode_set_node_ne in Hj by done. exists j, c, arg. done.
  - intros value _ Hprod. apply value_produced_iff in Hprod
      as (p & producer & Hp & Hout).
    apply value_produced_iff. destruct (decide (i = p)) as [->|Hne].
    + exists p, (with_subgraphs node subgraphs).
      rewrite GetNode_set_node by done. by simplify_eq.
    + exists p, producer. by rewrite GetNode_set_node_ne.
Qed.

Lemma gelu_input_from_add self graph node gelu_input gelu_index gelu_node
  arg :
  Validated self graph node gelu_input gelu_index gelu_node ->
  In arg gelu_input -> In arg (InputDefs node).
Proof.
  intros V Hin.
  destruct (v_operands _ _ _ _ _ _ V) as (in0 & in1 & H0 & H1 & _ & ->).
  apply list_elem_of_lookup_2, list_elem_of_In in H0, H1.
  destruct (is_rank1 (Shape in0)); simpl in Hin; intuition (subst; done).
Qed.

Lemma feeds_kept_fuse self graph i node gelu_input gelu_index gelu_node :
  GetNode graph i = Some node ->
  Validated self graph node gelu_input gelu_index gelu_node ->
  feeds_kept graph (fused_graph graph i gelu_input gelu_index gelu_node).
Proof.
  intros Hget V.
  pose proof (Validated_gelu_live _ _ _ _ _ _ V) as Hgelu.
  pose proof (Validated_distinct _ _ _ _ _ _ _ V Hget) as Hne.
  destruct (Validated_edges _ _ _ _ _ _ V) as [slot Hedges].
  pose proof (Validated_no_self_edge _ _ _ _ _ _ _ V Hget) as Hfree.
  destruct (fused_graph_facts graph i node gelu_input gelu_index gelu_node
              Hget Hgelu Hne) as (Hnew & _).
  split; [done|]. split.
  - intros value (j & c & arg & Hj & Hin & Hname).
    destruct (fused_graph_live _ _ _ _ _ _ _ _ Hget Hgelu Hne Hj)
      as [[_ ->]|(_ & _ & _ & Hold)].
    + rewrite reads_leaf in Hin by done. simpl in Hin.
      exists i, node, arg. split; [done|]. split; [|done].
      apply in_or_app. left. by eapply gelu_input_from_add.
    + exists j, c, arg. done.
  - intros value (j & c & arg & Hj & Hin & Hname) Hprod.
    apply value_produced_iff in Hprod as (p & producer & Hp & Hout).
    apply value_produced_iff.
    destruct (decide (p = gelu_index)) as [->|Hpg].
    { eexists _, _. split; [exact Hnew|]. by simplify_eq. }
    destruct (decide (p = i)) as [->|Hpa].
    2:{ exists p, producer. split; [|done].
        rewrite fused_graph_other; [done|done|done|by eapply GetNode_lt]. }
    exfalso. simplify_eq.
    destruct (fused_graph_live _ _ _ _ _ _ _ _ Hget Hgelu Hne Hj)
      as [[_ ->]|(_ & Hjg & _ & Hold)].
    + rewrite reads_leaf in Hin by done. simpl in Hin.
      rewrite (proj1 (slots_from_nil _ _ _) Hfree arg Hin) in Hout. done.
    + destruct (slots_from node 0 (reads c)) as [|s rest] eqn:Hs.
      * rewrite (proj1 (slots_from_nil _ _ _) Hs arg Hin) in Hout. done.
      * assert (In (j, c, s) (OutputEdges graph node)) as Hedge.
        { apply In_OutputEdges. split; [done|]. rewrite Hs. by left. }
        rewrite Hedges in Hedge. destruct Hedge as [Heq|[]]. by simplify_eq.
Qed.

Lemma visit_feeds apply self graph modified graph_level node_index status
  graph' modified' :
  keeps_feeds apply ->
  visit apply self graph modified graph_level node_index
  = (status, graph', modified') ->
  feeds_kept graph graph'.
Proof.
  intros Happly. unfold visit.
  destruct (GetNode graph node_index) as [node|] eqn:Hget;
    [|intros Heq; simplify_eq; apply feeds_kept_refl].
  pose proof (GetNode_lt _ _ _ Hget) as Hlt.
  unfold Recurse.
  destruct (recurse_subgraphs apply (Subgraphs node) modified
              (S graph_level)) as [[st1 subs'] m1] eqn:Hrec.
  pose proof (feeds_kept_writeback graph node_index node subs' Hget
                (recurse_subgraphs_feeds _ _ Happly _ _ _ _ _ Hrec)) as Hwb.
  set (node' := with_subgraphs node subs') in *.
  set (graph1 := set_node graph node_index (Some node')) in *.
  destruct st1 as [|code]; [|intros Heq; by simplify_eq].
  assert (GetNode graph1 node_index = Some node') as Hget1
    by (by apply GetNode_set_node).
  destruct (BiasGelu_match self graph1 node') as [| |gi gidx gnode] eqn:Hm.
  - rewrite match_and_fuse_NoMatch by done. intros Heq. by simplify_eq.
  - unfold match_and_fuse. rewrite Hm. intros Heq. by simplify_eq.
  - rewrite (match_and_fuse_Matched _ _ _ _ _ _ _ _ Hget1 Hm).
    intros Heq. simplify_eq. apply BiasGelu_match_Matched in Hm.
    eapply feeds_kept_trans; [exact Hwb|]. by eapply feeds_kept_fuse.
Qed.

Lemma sweep_feeds apply self node_topology_list :
  keeps_feeds apply ->
  forall graph modified graph_level status graph' modified',
    sweep apply self node_topology_list graph modified graph_level
    = (status, graph', modified') ->
    feeds_kept graph graph'.
Proof.
  intros Happly. induction node_topology_list as [|i rest IH];
    intros graph modified level status graph' modified'; simpl.
  - intros Heq. simplify_eq. apply feeds_kept_refl.
  - destruct (visit apply self graph modified level i)
      as [[st1 g1] m1] eqn:Hv.
    apply (visit_feeds _ _ _ _ _ _ _ _ _ Happly) in Hv.
    destruct st1 as [|code]; intros Heq; [|by simplify_eq].
    eapply feeds_kept_trans; [exact Hv|]. by eapply IH.
Qed.

Lemma feeds_kept_pass depth self : keeps_feeds (ApplyImpl depth self).
Proof.
  induction depth as [|depth IH];
    intros graph modified level status graph' modified'; simpl.
  - intros Heq. simplify_eq. apply feeds_kept_refl.
  - by apply sweep_feeds.
Qed.

(** ** Further properties of the rule *)

(** X1: a live node is fused exactly when every guard of lines 26-60 holds:
    it is an [Add] of version 7 on a compatible provider, its only consuming
    edge leads to a [Gelu] of version 1 in the Microsoft domain on the same
    provider, one of its two inputs has rank 1 and none of its outputs is an
    output of the graph.  The rewrite then never fails. *)
Theorem fused_exactly_when_guards_hold self graph modified add_index node :
  GetNode graph add_index = Some node ->
  (exists input0 input1 gelu_index gelu_node slot,
      IsSupportedOptypeVersionAndDomain node "Add" [7%Z] kOnnxDomain = true
      /\ IsSupportedProvider node (GetCompatibleExecutionProviders self)
         = true
      /\ OutputEdges graph node = [(gelu_index, gelu_node, slot)]
      /\ InputDefs node !! 0 = Some input0
      /\ InputDefs node !! 1 = Some input1
      /\ (is_rank1 (Shape input0) || is_rank1 (Shape input1) = true)
      /\ IsSupportedOptypeVersionAndDomain gelu_node "Gelu" [1%Z] kMSDomain
         = true
      /\ ExecutionProviderType gelu_node = ExecutionProviderType node
      /\ GetNodeOutputsInGraphOutputs graph node = [])
  <-> (exists graph',
          match_and_fuse self graph modified add_index node
          = (OK, graph', true)
          /\ NumberOfNodes graph' + 1 = NumberOfNodes graph).
Proof.
  intros Hget. split.
  - intros (in0 & in1 & gidx & gnode & slot & Hsig & Hprov & Hedges & H0 & H1
            & Hr & Hgelu & Hep & Hout).
    assert (Validated self graph node
              (if is_rank1 (Shape in0) then [in1; in0] else [in0; in1])
              gidx gnode) as V.
    { split; try done.
      - unfold GetOutputEdgesCount. by rewrite Hedges.
      - exists in0, in1. done.
      - unfold OutputNodes. by rewrite Hedges. }
    apply BiasGelu_match_Matched in V.
    destruct (fusion_result self graph modified _ _ _ _ _ Hget V)
      as (graph' & _ & Hrun & _ & Hcnt & _).
    eauto.
  - intros (graph' & Hrun & Hcnt).
    destruct (BiasGelu_match self graph node) as [| |gi gidx gnode] eqn:Hm.
    + rewrite match_and_fuse_NoMatch in Hrun by done. simplify_eq. lia.
    + unfold match_and_fuse in Hrun. rewrite Hm in Hrun. done.
    + apply BiasGelu_match_Matched in Hm.
      destruct (Validated_edges _ _ _ _ _ _ Hm) as [slot Hedges].
      destruct (v_operands _ _ _ _ _ _ Hm) as (in0 & in1 & H0 & H1 & Hr & _).
      exists in0, in1, gidx, gnode, slot.
      split; [apply (v_signature _ _ _ _ _ _ Hm)|].
      split; [apply (v_provider _ _ _ _ _ _ Hm)|].
      do 4 (split; [done|]).
      split; [apply (v_gelu _ _ _ _ _ _ Hm)|].
      split; [apply (v_same_provider _ _ _ _ _ _ Hm)|].
      apply (v_not_output _ _ _ _ _ _ Hm).
Qed.

(** X2: a pass never edits a node it keeps and never brings a node back:
    whatever is at an old index afterwards was there before, with the same
    name, operator, domain, version, inputs, outputs and provider. *)
Theorem pass_keeps_surviving_nodes depth self graph modified graph_level
  status graph' modified' i node' :
  ApplyImpl depth self graph modified graph_level
  = (status, graph', modified') ->
  i < length (Nodes graph) ->
  GetNode graph' i = Some node' ->
  exists node,
    GetNode graph i = Some node
    /\ NodeName node' = NodeName node
    /\ OpType node' = OpType node
    /\ Domain node' = Domain node
    /\ SinceVersion node' = SinceVersion node
    /\ InputDefs node' = InputDefs node
    /\ OutputDefs node' = OutputDefs node
    /\ ExecutionProviderType node' = ExecutionProviderType node.
Proof.
  intros Hrun Hlt Hget.
  destruct (arena_frame_pass _ _ _ _ _ _ _ _ Hrun) as (_ & Hold & _).
  destruct (Hold i node' Hlt Hget) as (node & Hnode & Heq).
  apply interface_fields in Heq. exists node. intuition.
Qed.

(** X3: a pass never removes a node that is neither an [Add] nor a [Gelu]:
    it is at its index afterwards, unchanged up to its subgraphs. *)
Theorem pass_keeps_bystanders depth self graph modified graph_level status
  graph' modified' i node :
  ApplyImpl depth self graph modified graph_level
  = (status, graph', modified') ->
  GetNode graph i = Some node ->
  OpType node <> "Add" ->
  OpType node <> "Gelu" ->
  exists node',
    GetNode graph' i = Some node'
    /\ NodeName node' = NodeName node
    /\ OpType node' = OpType node
    /\ Domain node' = Domain node
    /\ SinceVersion node' = SinceVersion node
    /\ InputDefs node' = InputDefs node
    /\ OutputDefs node' = OutputDefs node
    /\ ExecutionProviderType node' = ExecutionProviderType node.
Proof.
  intros Hrun Hget Hadd Hgelu.
  destruct (bystanders_kept_pass _ _ _ _ _ _ _ _ Hrun i node Hget Hadd Hgelu)
    as (node' & Hnode & Heq).
  apply interface_fields in Heq. exists node'. intuition.
Qed.

(** X4: every node a pass adds to a graph is a [BiasGelu] node of the
    Microsoft domain on a provider the transformer is compatible with, and
    it reads two inputs, the second of rank 1. *)
Theorem pass_adds_only_bias_gelu depth self graph modified graph_level status
  graph' modified' i node' :
  ApplyImpl depth self graph modified graph_level
  = (status, graph', modified') ->
  length (Nodes graph) <= i ->
  GetNode graph' i = Some node' ->
  OpType node' = "BiasGelu"
  /\ Domain node' = kMSDomain
  /\ IsSupportedProvider node' (GetCompatibleExecutionProviders self) = true
  /\ exists main bias,
       InputDefs node' = [main; bias] /\ is_rank1 (Shape bias) = true.
Proof.
  intros Hrun Hle Hget.
  destruct (arena_frame_pass _ _ _ _ _ _ _ _ Hrun) as (_ & _ & Hnew).
  exact (Hnew i node' Hle Hget).
Qed.

(** X5: over a whole pass the node count drops by exactly the number of
    slots the arena gained, one per fusion; it never rises. *)
Theorem pass_census depth self graph modified graph_level status graph'
  modified' :
  ApplyImpl depth self graph modified graph_level
  = (status, graph', modified') ->
  length (Nodes graph) <= length (Nodes graph')
  /\ NumberOfNodes graph' <= NumberOfNodes graph
  /\ NumberOfNodes graph - NumberOfNodes graph'
     = length (Nodes graph') - length (Nodes graph).
Proof.
  intros Hrun.
  pose proof (census_kept_pass _ _ _ _ _ _ _ _ Hrun) as Hcensus.
  destruct (arena_frame_pass _ _ _ _ _ _ _ _ Hrun) as (Hlen & _).
  unfold census_kept in Hcensus. lia.
Qed.

(** X6: a pass leaves the declared inputs and outputs of the graph as they
    are, whether it ends well or not. *)
Theorem pass_keeps_declared_values depth self graph modified graph_level
  status graph' modified' :
  ApplyImpl depth self graph modified graph_level
  = (status, graph', modified') ->
  GraphInputs graph' = GraphInputs graph
  /\ GraphOutputs graph' = GraphOutputs graph.
Proof. apply declared_kept_pass. Qed.

(** X7: a pass leaves no input dangling: a value that a node of the
    resulting graph reads, as one of its own inputs or from inside its nested
    subgraphs, and that some node produced before the pass, is produced by
    some node after it.  The same holds one level down for every subgraph the
    pass is run on. *)
Theorem pass_leaves_no_dangling_input depth self graph modified graph_level
  status graph' modified' i consumer arg :
  ApplyImpl depth self graph modified graph_level
  = (status, graph', modified') ->
  GetNode graph' i = Some consumer ->
  In arg (InputDefs consumer ++ ImplicitInputDefs consumer) ->
  value_produced graph (Name arg) = true ->
  value_produced graph' (Name arg) = true.
Proof.
  intros Hrun Hget Hin Hprod.
  destruct (feeds_kept_pass depth self _ _ _ _ _ _ Hrun) as (_ & _ & Hkept).
  apply Hkept; [|done]. exists i, consumer, arg. done.
Qed.

(** X8: on a graph whose [Add] nodes all have their two inputs, nested ones
    included, a pass with room for the nesting of the graph returns [OK]: the
    guards always meet what the fusion needs, so no fusion fails.  The
    resulting graph is again such a graph and is nested no deeper, so the
    pass can be run on it again. *)
Theorem pass_succeeds_on_resolved_graph depth self graph modified
  graph_level :
  nesting_depth graph <= depth ->
  adds_are_binary graph = true ->
  exists graph' modified',
    ApplyImpl depth self graph modified graph_level = (OK, graph', modified')
    /\ adds_are_binary graph' = true
    /\ nesting_depth graph' <= nesting_depth graph.
Proof.
  intros Hdepth Hall.
  destruct (ApplyImpl depth self graph modified graph_level)
    as [[status graph'] modified'] eqn:Hrun.
  destruct (ApplyImpl_within_depth depth self _ _ _ _ _ _ Hdepth Hrun)
    as [Hstatus Hnest].
  destruct (ApplyImpl_keeps_adds_binary depth self _ _ _ _ _ _ Hall Hrun)
    as [Hvalid Hall'].
  destruct Hstatus as [->| ->]; [|done].
  exists graph', modified'. done.
Qed.

(** *** Recursion into subgraphs *)

Lemma topological_rounds_NoDup rounds graph : forall emitted,
  NoDup emitted -> NoDup (topological_rounds rounds graph emitted).
Proof.
  induction rounds as [|rounds IH]; intros emitted Hnd; simpl; [done|].
  destruct (find (ready graph emitted) (live_nodes graph)) as [[j n]|] eqn:Hf;
    [|done].
  apply IH. apply find_some in Hf as [_ Hready].
  unfold ready in Hready. apply andb_prop in Hready as [Hfresh _].
  apply NoDup_app. split; [done|]. split; [|apply NoDup_singleton].
  intros k Hk Hk'. apply list_elem_of_singleton in Hk'. subst k.
  apply negb_true_iff, not_true_iff_false in Hfresh. apply Hfresh.
  apply existsb_exists. exists j. split; [by apply list_elem_of_In|].
  simpl. apply Nat.eqb_refl.
Qed.

Lemma topological_order_NoDup graph :
  NoDup (GetNodesInTopologicalOrder graph).
Proof. apply topological_rounds_NoDup. constructor. Qed.

(** A visit elsewhere does not change what is found at an index, unless it
    removes it. *)
Lemma visit_backward apply self graph modified graph_level node_index status
  graph' modified' i kept :
  visit apply self graph modified graph_level node_index
  = (status, graph', modified') ->
  i <> node_index ->
  i < length (Nodes graph) ->
  GetNode graph' i = Some kept ->
  GetNode graph i = Some kept.
Proof.
  intros Hrun Hne Hlt. revert Hrun. unfold visit.
  destruct (GetNode graph node_index) as [node|] eqn:Hget;
    [|intros Heq; by simplify_eq].
  pose proof (GetNode_lt _ _ _ Hget) as Hlt'.
  destruct (Recurse apply node modified graph_level) as [[st1 node'] m1].
  set (graph1 := set_node graph node_index (Some node')).
  assert (GetNode graph1 i = GetNode graph i) as Hsame
    by (by apply GetNode_set_node_ne).
  destruct st1 as [|code]; [|intros Heq; simplify_eq; congruence].
  assert (GetNode graph1 node_index = Some node') as Hget1
    by (by apply GetNode_set_node).
  destruct (BiasGelu_match self graph1 node') as [| |gi gidx gnode] eqn:Hm.
  - rewrite match_and_fuse_NoMatch by done. intros Heq. simplify_eq.
    congruence.
  - unfold match_and_fuse. rewrite Hm. intros Heq. simplify_eq. congruence.
  - rewrite (match_and_fuse_Matched _ _ _ _ _ _ _ _ Hget1 Hm).
    intros Heq Hi. simplify_eq. apply BiasGelu_match_Matched in Hm.
    destruct (fused_graph_live _ _ _ _ _ _ _ _ Hget1
                (Validated_gelu_live _ _ _ _ _ _ Hm)
                (Validated_distinct _ _ _ _ _ _ _ Hm Hget1) Hi)
      as [[-> _]|(_ & _ & _ & Hold)]; [|congruence].
    unfold graph1 in Hlt. simpl in Hlt. rewrite length_insert in Hlt. lia.
Qed.

Lemma sweep_backward apply self node_topology_list i kept :
  ~ In i node_topology_list ->
  forall graph modified graph_level status graph' modified',
    sweep apply self node_topology_list graph modified graph_level
    = (status, graph', modified') ->
    i < length (Nodes graph) ->
    GetNode graph' i = Some kept ->
    GetNode graph i = Some kept.
Proof.
  intros Hnotin. induction node_topology_list as [|j rest IH];
    intros graph modified level status graph' modified'; simpl.
  - intros Heq. by simplify_eq.
  - destruct (visit apply self graph modified level j)
      as [[st1 g1] m1] eqn:Hv.
    assert (i <> j) as Hne by (intros ->; apply Hnotin; by left).
    pose proof (visit_length _ _ _ _ _ _ _ _ _ Hv) as Hlen.
    destruct st1 as [|code]; intros Heq Hlt Hi.
    + eapply visit_backward; [exact Hv|done|done|].
      eapply IH; [|exact Heq|lia|done].
      intros Hin. apply Hnotin. by right.
    + simplify_eq. by eapply visit_backward.
Qed.

(** A visit that ends well and leaves its node in place has put the
    rewritten subgraphs into it and nothing else. *)
Lemma visit_in_place apply self graph modified graph_level i graph'
  modified' node node' :
  visit apply self graph modified graph_level i = (OK, graph', modified') ->
  GetNode graph i = Some node ->
  GetNode graph' i = Some node' ->
  exists subgraphs' modified1,
    recurse_subgraphs apply (Subgraphs node) modified (S graph_level)
    = (OK, subgraphs', modified1)
    /\ node' = with_subgraphs node subgraphs'.
Proof.
  intros Hrun Hget. revert Hrun. unfold visit. rewrite Hget.
  pose proof (GetNode_lt _ _ _ Hget) as Hlt. unfold Recurse.
  destruct (recurse_subgraphs apply (Subgraphs node) modified
              (S graph_level)) as [[st1 subs'] m1].
  set (node1 := with_subgraphs node subs').
  set (graph1 := set_node graph i (Some node1)).
  destruct st1 as [|code]; [|done].
  assert (GetNode graph1 i = Some node1) as Hget1
    by (by apply GetNode_set_node).
  destruct (BiasGelu_match self graph1 node1) as [| |gi gidx gnode] eqn:Hm.
  - rewrite match_and_fuse_NoMatch by done. intros Heq Hi.
    injection Heq as Hg Hflag. subst graph' modified'.
    exists subs', m1. split; [done|].
    rewrite Hget1 in Hi. by injection Hi as <-.
  - unfold match_and_fuse. by rewrite Hm.
  - rewrite (match_and_fuse_Matched _ _ _ _ _ _ _ _ Hget1 Hm).
    intros Heq Hi. simplify_eq. apply BiasGelu_match_Matched in Hm.
    destruct (fused_graph_facts graph1 i node1 gi gidx gnode Hget1
                (Validated_gelu_live _ _ _ _ _ _ Hm)
                (Validated_distinct _ _ _ _ _ _ _ Hm Hget1))
      as (_ & _ & _ & _ & Hgone & _).
    congruence.
Qed.

Lemma recurse_subgraphs_each apply subgraphs :
  forall modified subgraph_level subgraphs' modified',
    recurse_subgraphs apply subgraphs modified subgraph_level
    = (OK, subgraphs', modified') ->
    Forall2 (fun subgraph subgraph' =>
               exists entry leave,
                 apply subgraph entry subgraph_level
                 = (OK, subgraph', leave))
            subgraphs subgraphs'.
Proof.
  induction subgraphs as [|g rest IH];
    intros modified level subgraphs' modified'; simpl.
  - intros Heq. simplify_eq. constructor.
  - destruct (apply g modified level) as [[[|code] g1] m1] eqn:Hrun1; [|done].
    destruct (recurse_subgraphs apply rest m1 level)
      as [[st2 rest'] m2] eqn:Hrun2.
    intros Heq. simplify_eq. constructor; [eauto|]. by eapply IH.
Qed.

(** X9: a pass that ends well has run the rule on every subgraph of every
    node it visited and kept: the subgraphs found in such a node afterwards
    are, one by one and in order, what the pass returns with [OK] on the
    subgraphs it had before, one level further down. *)
Theorem pass_recurses_into_subgraphs depth self graph modified graph_level
  graph' modified' i node node' :
  ApplyImpl (S depth) self graph modified graph_level
  = (OK, graph', modified') ->
  In i (GetNodesInTopologicalOrder graph) ->
  GetNode graph i = Some node ->
  GetNode graph' i = Some node' ->
  Forall2 (fun subgraph subgraph' =>
             exists entry leave,
               ApplyImpl depth self subgraph entry (S graph_level)
               = (OK, subgraph', leave))
          (Subgraphs node) (Subgraphs node').
Proof.
  simpl. intros Hrun Hin Hget Hget'.
  pose proof (topological_order_NoDup graph) as Hnd.
  pose proof (GetNode_lt _ _ _ Hget) as Hlt.
  apply in_split in Hin as (before & after & Horder).
  rewrite Horder in Hrun, Hnd.
  apply NoDup_app in Hnd as (_ & Hapart & Hnd).
  apply NoDup_cons in Hnd as [Hafter _].
  assert (~ In i before) as Hbefore.
  { intros Hin. apply list_elem_of_In in Hin.
    apply (Hapart i Hin). by left. }
  rewrite sweep_app in Hrun.
  destruct (sweep (ApplyImpl depth self) self before graph modified
              graph_level) as [[[|code] g1] m1] eqn:Hs1; [|done].
  pose proof (sweep_length _ _ _ _ _ _ _ _ _ Hs1) as Hlen1.
  simpl in Hrun.
  destruct (visit (ApplyImpl depth self) self g1 m1 graph_level i)
    as [[[|code] g2] m2] eqn:Hv; [|done].
  pose proof (visit_length _ _ _ _ _ _ _ _ _ Hv) as Hlen2.
  assert (GetNode g2 i = Some node') as Hget2.
  { eapply sweep_backward; [|exact Hrun|lia|done].
    intros Hin. apply Hafter. by apply list_elem_of_In. }
  assert (GetNode g1 i = Some node) as Hget1.
  { destruct (GetNode g1 i) as [n1|] eqn:Hn1.
    - by rewrite (sweep_backward _ _ _ _ _ Hbefore _ _ _ _ _ _ Hs1 Hlt Hn1)
        in Hget.
    - unfold visit in Hv. rewrite Hn1 in Hv. by simplify_eq. }
  destruct (visit_in_place _ _ _ _ _ _ _ _ _ _ Hv Hget1 Hget2)
    as (subs' & m' & Hrec & ->).
  simpl. by eapply recurse_subgraphs_each.
Qed.

(** *** Declared outputs and their producers *)

Lemma produces_output node value :
  produces node value = true
  <-> exists out, In out (OutputDefs node) /\ Name out = value.
Proof.
  unfold produces. rewrite existsb_exists. split.
  - intros (out & Hin & Heq). apply String.eqb_eq in Heq. eauto.
  - intros (out & Hin & Heq). exists out. split; [done|].
    by apply String.eqb_eq.
Qed.

Lemma outputs_fed_fuse self graph i node gelu_input gelu_index gelu_node :
  GetNode graph i = Some node ->
  Validated self graph node gelu_input gelu_index gelu_node ->
  outputs_fed graph (fused_graph graph i gelu_input gelu_index gelu_node).
Proof.
  intros Hget V.
  pose proof (Validated_gelu_live _ _ _ _ _ _ V) as Hgelu.
  pose proof (Validated_distinct _ _ _ _ _ _ _ V Hget) as Hne.
  destruct (fused_graph_facts graph i node gelu_input gelu_index gelu_node
              Hget Hgelu Hne) as (Hnew & _).
  split; [done|]. intros declared Hdecl Hprod.
  apply value_produced_iff in Hprod as (p & producer & Hp & Hout).
  apply value_produced_iff.
  destruct (decide (p = gelu_index)) as [->|Hpg].
  { eexists _, _. split; [exact Hnew|]. by simplify_eq. }
  destruct (decide (p = i)) as [->|Hpa].
  2:{ exists p, producer. split; [|done].
      rewrite fused_graph_other; [done|done|done|by eapply GetNode_lt]. }
  exfalso. simplify_eq.
  apply produces_output in Hout as (out & Hin & Heq).
  pose proof (v_not_output _ _ _ _ _ _ V) as Hnil.
  unfold GetNodeOutputsInGraphOutputs in Hnil.
  by apply (proj1 (outputs_in_nil _ _ _) Hnil out declared).
Qed.

Lemma outputs_fed_pass depth self graph modified graph_level status graph'
  modified' :
  ApplyImpl depth self graph modified graph_level
  = (status, graph', modified') ->
  outputs_fed graph graph'.
Proof.
  apply (ApplyImpl_lifts self outputs_fed).
  - intros g. split; auto.
  - intros a b c [Ho Hp] [Ho' Hp']. split; [congruence|].
    intros declared Hdecl Hprod. apply Hp'; [by rewrite Ho|]. by apply Hp.
  - intros g i node subs Hget. split; [done|]. intros declared _ Hprod.
    apply value_produced_iff in Hprod as (p & producer & Hp & Hout).
    pose proof (GetNode_lt _ _ _ Hget) as Hlt.
    apply value_produced_iff. destruct (decide (i = p)) as [->|Hne].
    + exists p, (with_subgraphs node subs).
      rewrite GetNode_set_node by done. by simplify_eq.
    + exists p, producer. by rewrite GetNode_set_node_ne.
  - apply outputs_fed_fuse.
Qed.

(** X10: every declared output of the graph that some node produced before
    a pass is produced by some node after it: the rule does not fuse an [Add]
    whose output the caller reads (lines 58-60), and the [BiasGelu] node
    produces what the [Gelu] node produced. *)
Theorem pass_keeps_outputs_produced depth self graph modified graph_level
  status graph' modified' declared :
  ApplyImpl depth self graph modified graph_level
  = (status, graph', modified') ->
  In declared (GraphOutputs graph) ->
  value_produced graph (Name declared) = true ->
  In declared (GraphOutputs graph')
  /\ value_produced graph' (Name declared) = true.
Proof.
  intros Hrun Hdecl Hprod.
  destruct (outputs_fed_pass _ _ _ _ _ _ _ _ Hrun) as [Ho Hfed].
  split; [by rewrite Ho|]. by apply Hfed.
Qed.

End Matching.

(** ** The scenarios, run *)

Example scenario_A :
  @ApplyImpl ort_domains 1 cpu_only graph_A false 0
  = (OK, graph_A_fused, true).
Proof. reflexivity. Qed.

Example scenario_bias_second :
  @ApplyImpl ort_domains 1 cpu_only graph_bias_second false 0
  = (OK, graph_A_fused, true).
Proof. reflexivity. Qed.

Example scenario_B :
  @ApplyImpl ort_domains 1 cpu_only graph_B false 0 = (OK, graph_B, false).
Proof. reflexivity. Qed.

Example scenario_C :
  @ApplyImpl ort_domains 1 cpu_only graph_C false 0 = (OK, graph_C, false).
Proof. reflexivity. Qed.

Example scenario_D :
  @ApplyImpl ort_domains 1 cpu_only graph_D false 0 = (OK, graph_D, false).
Proof. reflexivity. Qed.

Example scenario_two_slots :
  GetOutputEdgesCount graph_two_slots (add_node bias X) = 2
  /\ @ApplyImpl ort_domains 1 cpu_only graph_two_slots false 0
     = (OK, graph_two_slots, false).
Proof. split; reflexivity. Qed.

Example scenario_E :
  @ApplyImpl ort_domains 2 cpu_only graph_E false 0
  = (OK, graph_E_fused, true).
Proof. reflexivity. Qed.

(** ** The claims on the sample graphs *)

#[local] Existing Instance ort_domains.

(** Scenario A under C1: the bias is the first input of [Add]. *)
Lemma replacement_inputs_main_then_bias_witness :
  GetNode graph_A 0 = Some (add_node bias X)
  /\ @BiasGelu_match ort_domains cpu_only graph_A (add_node bias X)
     = Matched [X; bias] 1 gelu_node
  /\ exists main bias' graph' replacement,
       is_rank1 (Shape bias') = true
       /\ ((InputDefs (add_node bias X) !! 0 = Some bias'
            /\ InputDefs (add_node bias X) !! 1 = Some main)
           \/ (InputDefs (add_node bias X) !! 0 = Some main
               /\ InputDefs (add_node bias X) !! 1 = Some bias'
               /\ is_rank1 (Shape main) = false))
       /\ @match_and_fuse ort_domains cpu_only graph_A false 0
                          (add_node bias X) = (OK, graph', true)
       /\ GetNode graph' (length (Nodes graph_A)) = Some replacement
       /\ OpType replacement = "BiasGelu"
       /\ InputDefs replacement = [main; bias'].
Proof.
  split; [reflexivity|]. split; [reflexivity|].
  apply (@replacement_inputs_main_then_bias ort_domains cpu_only graph_A
           false 0 (add_node bias X) [X; bias] 1 gelu_node); reflexivity.
Defined.

(** C2, as stated, fails on scenario A: the first input of [Add] is the
    rank-1 bias, and the replacement node reads [X] as input 0 and the bias
    as input 1. *)
Lemma first_input_bias_becomes_input_1 :
  InputDefs (add_node bias X) !! 0 = Some bias
  /\ is_rank1 (Shape bias) = true
  /\ @ApplyImpl ort_domains 1 cpu_only graph_A false 0
     = (OK, graph_A_fused, true)
  /\ GetNode graph_A_fused 2 = Some (bias_gelu X bias)
  /\ InputDefs (bias_gelu X bias) !! 0 = Some X
  /\ InputDefs (bias_gelu X bias) !! 1 = Some bias
  /\ InputDefs (bias_gelu X bias) !! 0 <> Some bias.
Proof. repeat split; try reflexivity. discriminate. Qed.

(** Two rank-1 inputs under the amended C2: the first one is the bias. *)
Lemma bias_is_first_qualifying_input_witness :
  GetNode graph_two_biases 0 = Some (add_node bias bias2)
  /\ @BiasGelu_match ort_domains cpu_only graph_two_biases
                     (add_node bias bias2)
     = Matched [bias2; bias] 1 gelu_node
  /\ exists graph' replacement,
       @match_and_fuse ort_domains cpu_only graph_two_biases false 0
                       (add_node bias bias2) = (OK, graph', true)
       /\ GetNode graph' (length (Nodes graph_two_biases)) = Some replacement
       /\ (is_rank1 (Shape bias) = true ->
           InputDefs replacement = [bias2; bias])
       /\ (is_rank1 (Shape bias) = false ->
           is_rank1 (Shape bias2) = true
           /\ InputDefs replacement = [bias; bias2]).
Proof.
  split; [reflexivity|]. split; [reflexivity|].
  apply (@bias_is_first_qualifying_input ort_domains cpu_only
           graph_two_biases false 0 (add_node bias bias2) [bias2; bias] 1
           gelu_node bias bias2); reflexivity.
Defined.

(** C3, as stated, fails where both inputs of [Add] have rank 1: the node is
    fused all the same. *)
Lemma two_rank1_inputs_still_fuse :
  is_rank1 (Shape bias) = true
  /\ is_rank1 (Shape bias2) = true
  /\ @BiasGelu_match ort_domains cpu_only graph_two_biases
                     (add_node bias bias2)
     = Matched [bias2; bias] 1 gelu_node
  /\ @ApplyImpl ort_domains 1 cpu_only graph_two_biases false 0
     = (OK,
        mkGraph [None; None; Some (bias_gelu bias2 bias)] [bias; bias2]
                [out] 1,
        true).
Proof. repeat split; reflexivity. Qed.

(** The amended C3 on two graphs: scenario C, without a rank-1 operand, is
    declined; two rank-1 operands are fused, the first being the bias. *)
Lemma rank1_operand_required_witness :
  (InputDefs (add_node X Y) !! 0 = Some X
   /\ InputDefs (add_node X Y) !! 1 = Some Y
   /\ is_rank1 (Shape X) = false
   /\ is_rank1 (Shape Y) = false
   /\ @BiasGelu_match ort_domains cpu_only graph_C (add_node X Y) = NoMatch
   /\ @match_and_fuse ort_domains cpu_only graph_C false 0 (add_node X Y)
      = (OK, graph_C, false))
  /\ (InputDefs (add_node bias bias2) !! 0 = Some bias
      /\ InputDefs (add_node bias bias2) !! 1 = Some bias2
      /\ is_rank1 (Shape bias) = true
      /\ is_rank1 (Shape bias2) = true
      /\ exists graph',
           @BiasGelu_match ort_domains cpu_only graph_two_biases
                           (add_node bias bias2)
           = Matched [bias2; bias] 1 gelu_node
           /\ @match_and_fuse ort_domains cpu_only graph_two_biases false 0
                              (add_node bias bias2) = (OK, graph', true)
           /\ NumberOfNodes graph' + 1 = NumberOfNodes graph_two_biases).
Proof.
  split.
  - split; [reflexivity|]. split; [reflexivity|].
    split; [reflexivity|]. split; [reflexivity|].
    apply (proj1 (proj2 (proj2 (@rank1_operand_required ort_domains cpu_only
                                  graph_C false 0 (add_node X Y) X Y
                                  eq_refl eq_refl))));
      reflexivity.
  - split; [reflexivity|]. split; [reflexivity|].
    split; [reflexivity|]. split; [reflexivity|].
    apply (proj2 (proj2 (proj2 (@rank1_operand_required ort_domains cpu_only
                                  graph_two_biases false 0
                                  (add_node bias bias2) bias bias2
                                  eq_refl eq_refl)))
             1 gelu_node 0);
      try reflexivity. by left.
Defined.

(** Scenario B under C4. *)
Lemma graph_output_blocks_fusion_witness :
  GetNode graph_B 0 = Some (add_node bias X)
  /\ In sum (OutputDefs (add_node bias X))
  /\ In sum (GraphOutputs graph_B)
  /\ exists status,
       visit (@ApplyImpl ort_domains 0 cpu_only) cpu_only graph_B false 0 0
       = (status, graph_B, false).
Proof.
  split; [reflexivity|]. split; [by left|]. split; [right; by left|].
  apply (@graph_output_blocks_fusion ort_domains
           (@ApplyImpl ort_domains 0 cpu_only) cpu_only graph_B false 0 0
           (add_node bias X) sum sum);
    [reflexivity | by left | right; by left | reflexivity | reflexivity].
Defined.

(** Scenario D under C5: two consuming edges. *)
Lemma single_consuming_edge_required_witness :
  GetOutputEdgesCount graph_D (add_node bias X) = 2
  /\ @BiasGelu_match ort_domains cpu_only graph_D (add_node bias X) = NoMatch
  /\ @match_and_fuse ort_domains cpu_only graph_D false 0 (add_node bias X)
     = (OK, graph_D, false).
Proof.
  split; [reflexivity|].
  destruct (@single_consuming_edge_required ort_domains cpu_only graph_D
              false 0 (add_node bias X)) as (Hno & _ & Hsame).
  - vm_compute. discriminate.
  - split; [exact Hno | exact Hsame].
Defined.

(** Scenario A under C6. *)
Lemma gelu_consumer_shares_provider_witness :
  GetNode graph_A 0 = Some (add_node bias X)
  /\ @BiasGelu_match ort_domains cpu_only graph_A (add_node bias X)
     = Matched [X; bias] 1 gelu_node
  /\ OutputNodes graph_A (add_node bias X) = [(1, gelu_node)]
  /\ ExecutionProviderType gelu_node
     = ExecutionProviderType (add_node bias X).
Proof.
  split; [reflexivity|]. split; [reflexivity|].
  destruct (@gelu_consumer_shares_provider ort_domains cpu_only graph_A
              false 0 (add_node bias X) [X; bias] 1 gelu_node
              eq_refl eq_refl) as (Hsole & _ & _ & Hsame & _).
  split; [exact Hsole | exact Hsame].
Defined.

(** Scenario A under C7. *)
Lemma fusion_preserves_outputs_witness :
  GetNode graph_A 0 = Some (add_node bias X)
  /\ @BiasGelu_match ort_domains cpu_only graph_A (add_node bias X)
     = Matched [X; bias] 1 gelu_node
  /\ exists graph' replacement,
       @match_and_fuse ort_domains cpu_only graph_A false 0
                       (add_node bias X) = (OK, graph', true)
       /\ GetNode graph_A 1 = Some gelu_node
       /\ GetNode graph' (length (Nodes graph_A)) = Some replacement
       /\ OutputDefs replacement = OutputDefs gelu_node
       /\ GraphOutputs graph' = GraphOutputs graph_A
       /\ map Name (GraphOutputs graph') = map Name (GraphOutputs graph_A).
Proof.
  split; [reflexivity|]. split; [reflexivity|].
  apply (proj2 (@fusion_preserves_outputs ort_domains) cpu_only graph_A
           false 0 (add_node bias X) [X; bias] 1 gelu_node); reflexivity.
Defined.

(** Scenario A under C8: two nodes before, one after. *)
Lemma node_count_law_witness :
  NumberOfNodes graph_A = 2
  /\ exists graph',
       @match_and_fuse ort_domains cpu_only graph_A false 0
                       (add_node bias X) = (OK, graph', true)
       /\ NumberOfNodes graph' + 1 = NumberOfNodes graph_A
       /\ length (Nodes graph') = length (Nodes graph_A) + 1
       /\ GetNode graph' 0 = None
       /\ GetNode graph' 1 = None.
Proof.
  split; [reflexivity|].
  apply (proj2 (@node_count_law ort_domains) cpu_only graph_A false 0
           (add_node bias X) [X; bias] 1 gelu_node); reflexivity.
Defined.

(** Scenario A under C9: the new node has index 2, the order is [0; 1]. *)
Lemma replacement_not_revisited_witness :
  GetNodesInTopologicalOrder graph_A = [] ++ 0 :: [1]
  /\ visit (@ApplyImpl ort_domains 0 cpu_only) cpu_only graph_A false 0 0
     = (OK, graph_A_fused, true)
  /\ exists replacement,
       GetNode graph_A_fused 2 = Some replacement
       /\ OpType replacement = "BiasGelu"
       /\ ~ In 2 (GetNodesInTopologicalOrder graph_A)
       /\ @ApplyImpl ort_domains 1 cpu_only graph_A false 0
          = sweep (@ApplyImpl ort_domains 0 cpu_only) cpu_only [1]
                  graph_A_fused true 0
       /\ forall status graph' modified',
            @ApplyImpl ort_domains 1 cpu_only graph_A false 0
            = (status, graph', modified') ->
            GetNode graph' 2 = Some replacement.
Proof.
  split; [reflexivity|]. split; [reflexivity|].
  destruct (@replacement_not_revisited ort_domains 0 cpu_only graph_A false 0
              [] 0 [1] graph_A false graph_A_fused true)
    as (replacement & Hnew & Hop & _ & Hout & Hnext & Hkept);
    [reflexivity | reflexivity | reflexivity | vm_compute; discriminate|].
  exists replacement. split; [exact Hnew|]. split; [exact Hop|].
  split; [exact Hout|]. split; [exact Hnext | exact Hkept].
Defined.

(** Scenario E under C10: a fusion in a nested subgraph raises the flag. *)
Lemma modified_flag_monotone_witness :
  @ApplyImpl ort_domains 2 cpu_only graph_E false 0
  = (OK, graph_E_fused, true)
  /\ total_nodes graph_E_fused < total_nodes graph_E
  /\ exists fused,
       true = false || fused
       /\ (fused = true <-> graph_E_fused <> graph_E)
       /\ forall entry,
            @ApplyImpl ort_domains 2 cpu_only graph_E entry 0
            = (OK, graph_E_fused, entry || fused).
Proof.
  split; [reflexivity|].
  destruct (@modified_flag_monotone ort_domains 2 cpu_only graph_E false 0
              OK graph_E_fused true eq_refl) as (_ & Hchanged & _ & Hfused).
  split; [apply Hchanged; discriminate | exact Hfused].
Defined.

(** ** The further properties on the sample graphs *)

(** A value captured by a subgraph counts as consumed by the node that owns
    the subgraph: the [Add] then has two consuming edges and is not fused. *)
Example scenario_captured_sum :
  ImplicitInputDefs (loop_node (body_reading sum)) = [sum]
  /\ GetOutputEdgesCount graph_captured_sum (add_node bias X) = 2
  /\ ApplyImpl 2 cpu_only graph_captured_sum false 0
     = (OK, graph_captured_sum, false).
Proof. repeat split; reflexivity. Qed.

Example scenario_captured_out :
  ApplyImpl 2 cpu_only graph_captured_out false 0
  = (OK, graph_captured_out_fused, true).
Proof. reflexivity. Qed.

Example scenario_chain :
  ApplyImpl 1 cpu_only graph_chain false 0 = (OK, graph_chain_fused, true).
Proof. reflexivity. Qed.

(** Scenario A under X1: every guard holds, so the pair is fused. *)
Lemma fused_exactly_when_guards_hold_witness :
  GetNode graph_A 0 = Some (add_node bias X)
  /\ exists graph',
       match_and_fuse cpu_only graph_A false 0 (add_node bias X)
       = (OK, graph', true)
       /\ NumberOfNodes graph' + 1 = NumberOfNodes graph_A.
Proof.
  split; [reflexivity|].
  apply (proj1 (fused_exactly_when_guards_hold cpu_only graph_A false 0
                  (add_node bias X) eq_refl)).
  exists bias, X, 1, gelu_node, 0. repeat split; reflexivity.
Defined.

(** The chain under X2: the [Relu] node at index 2 is as it was. *)
Lemma pass_keeps_surviving_nodes_witness :
  ApplyImpl 1 cpu_only graph_chain false 0 = (OK, graph_chain_fused, true)
  /\ 2 < length (Nodes graph_chain)
  /\ GetNode graph_chain_fused 2 = Some relu_after
  /\ exists node,
       GetNode graph_chain 2 = Some node
       /\ NodeName relu_after = NodeName node
       /\ OpType relu_after = OpType node
       /\ Domain relu_after = Domain node
       /\ SinceVersion relu_after = SinceVersion node
       /\ InputDefs relu_after = InputDefs node
       /\ OutputDefs relu_after = OutputDefs node
       /\ ExecutionProviderType relu_after = ExecutionProviderType node.
Proof.
  split; [reflexivity|]. split; [simpl; lia|]. split; [reflexivity|].
  apply (pass_keeps_surviving_nodes 1 cpu_only graph_chain false 0 OK
           graph_chain_fused true 2 relu_after);
    [reflexivity | simpl; lia | reflexivity].
Defined.

(** The chain under X3: the [Relu] node survives the fusion before it. *)
Lemma pass_keeps_bystanders_witness :
  ApplyImpl 1 cpu_only graph_chain false 0 = (OK, graph_chain_fused, true)
  /\ GetNode graph_chain 2 = Some relu_after
  /\ exists node',
       GetNode graph_chain_fused 2 = Some node'
       /\ NodeName node' = NodeName relu_after
       /\ OpType node' = OpType relu_after
       /\ Domain node' = Domain relu_after
       /\ SinceVersion node' = SinceVersion relu_after
       /\ InputDefs node' = InputDefs relu_after
       /\ OutputDefs node' = OutputDefs relu_after
       /\ ExecutionProviderType node' = ExecutionProviderType relu_after.
Proof.
  split; [reflexivity|]. split; [reflexivity|].
  apply (pass_keeps_bystanders 1 cpu_only graph_chain false 0 OK
           graph_chain_fused true 2 relu_after);
    [reflexivity | reflexivity | discriminate | discriminate].
Defined.

(** The chain under X4: the node at the new index 3. *)
Lemma pass_adds_only_bias_gelu_witness :
  ApplyImpl 1 cpu_only graph_chain false 0 = (OK, graph_chain_fused, true)
  /\ GetNode graph_chain_fused 3 = Some (bias_gelu X bias)
  /\ OpType (bias_gelu X bias) = "BiasGelu"
  /\ Domain (bias_gelu X bias) = kMSDomain
  /\ IsSupportedProvider (bias_gelu X bias)
                         (GetCompatibleExecutionProviders cpu_only) = true
  /\ exists main bias',
       InputDefs (bias_gelu X bias) = [main; bias']
       /\ is_rank1 (Shape bias') = true.
Proof.
  split; [reflexivity|]. split; [reflexivity|].
  apply (pass_adds_only_bias_gelu 1 cpu_only graph_chain false 0 OK
           graph_chain_fused true 3 (bias_gelu X bias));
    [reflexivity | simpl; lia | reflexivity].
Defined.

(** The chain under X5: one slot more, one node fewer. *)
Lemma pass_census_witness :
  ApplyImpl 1 cpu_only graph_chain false 0 = (OK, graph_chain_fused, true)
  /\ NumberOfNodes graph_chain = 3
  /\ NumberOfNodes graph_chain_fused = 2
  /\ NumberOfNodes graph_chain - NumberOfNodes graph_chain_fused
     = length (Nodes graph_chain_fused) - length (Nodes graph_chain).
Proof.
  split; [reflexivity|]. split; [reflexivity|]. split; [reflexivity|].
  apply (pass_census 1 cpu_only graph_chain false 0 OK graph_chain_fused
           true); reflexivity.
Defined.

(** The chain under X6. *)
Lemma pass_keeps_declared_values_witness :
  ApplyImpl 1 cpu_only graph_chain false 0 = (OK, graph_chain_fused, true)
  /\ GraphInputs graph_chain_fused = GraphInputs graph_chain
  /\ GraphOutputs graph_chain_fused = GraphOutputs graph_chain.
Proof.
  split; [reflexivity|].
  apply (pass_keeps_declared_values 1 cpu_only graph_chain false 0 OK
           graph_chain_fused true); reflexivity.
Defined.

(** X7 where a subgraph reads the result of the fused pair: the body of
    the loop reads [out], which the [Gelu] node produced and the [BiasGelu]
    node produces now. *)
Lemma pass_leaves_no_dangling_input_witness :
  ApplyImpl 2 cpu_only graph_captured_out false 0
  = (OK, graph_captured_out_fused, true)
  /\ GetNode graph_captured_out_fused 2
     = Some (loop_node (body_reading out))
  /\ InputDefs (loop_node (body_reading out)) = []
  /\ ImplicitInputDefs (loop_node (body_reading out)) = [out]
  /\ value_produced graph_captured_out (Name out) = true
  /\ value_produced graph_captured_out_fused (Name out) = true.
Proof.
  split; [reflexivity|]. split; [reflexivity|]. split; [reflexivity|].
  split; [reflexivity|]. split; [reflexivity|].
  apply (pass_leaves_no_dangling_input 2 cpu_only graph_captured_out false 0
           OK graph_captured_out_fused true 2
           (loop_node (body_reading out)) out);
    [reflexivity | reflexivity | by left | reflexivity].
Defined.

(** Scenario E under X8: nesting depth 2, every [Add] binary. *)
Lemma pass_succeeds_on_resolved_graph_witness :
  nesting_depth graph_E <= 2
  /\ adds_are_binary graph_E = true
  /\ exists graph' modified',
       ApplyImpl 2 cpu_only graph_E false 0 = (OK, graph', modified')
       /\ adds_are_binary graph' = true
       /\ nesting_depth graph' <= nesting_depth graph_E.
Proof.
  split; [vm_compute; lia|]. split; [reflexivity|].
  apply (pass_succeeds_on_resolved_graph 2 cpu_only graph_E false 0);
    [vm_compute; lia | reflexivity].
Defined.

(** Scenario E under X9: the body of the loop is what a pass makes of it. *)
Lemma pass_recurses_into_subgraphs_witness :
  ApplyImpl 2 cpu_only graph_E false 0 = (OK, graph_E_fused, true)
  /\ In 0 (GetNodesInTopologicalOrder graph_E)
  /\ Forall2 (fun subgraph subgraph' =>
                exists entry leave,
                  ApplyImpl 1 cpu_only subgraph entry 1
                  = (OK, subgraph', leave))
             [graph_A] [graph_A_fused].
Proof.
  split; [reflexivity|]. split; [by left|].
  apply (pass_recurses_into_subgraphs 1 cpu_only graph_E false 0
           graph_E_fused true 0 (loop_node graph_A)
           (loop_node graph_A_fused));
    [reflexivity | by left | reflexivity | reflexivity].
Defined.

(** Scenario A under X10: [out] is declared, produced by [Gelu] before and by
    [BiasGelu] after. *)
Lemma pass_keeps_outputs_produced_witness :
  ApplyImpl 1 cpu_only graph_A false 0 = (OK, graph_A_fused, true)
  /\ In out (GraphOutputs graph_A)
  /\ value_produced graph_A (Name out) = true
  /\ In out (GraphOutputs graph_A_fused)
  /\ value_produced graph_A_fused (Name out) = true.
Proof.
  split; [reflexivity|]. split; [by left|]. split; [reflexivity|].
  apply (pass_keeps_outputs_produced 1 cpu_only graph_A false 0 OK
           graph_A_fused true out); [reflexivity | by left | reflexivity].
Defined.
